(** * filtered_logger: redaction of personal data in log lines

    A shallow embedding of [0x00-personal_data/filtered_logger.py].

    [filter_datum] is a loop of [re.sub] calls whose pattern and replacement
    are built from the field name, the redaction token and the separator by
    string interpolation.  What the function does is therefore what Python's
    [re] module does with the interpolated strings, so the embedding contains
    the part of [re] the function exercises: the pattern parser, the
    replacement-template parser, the backtracking matcher and the
    substitution loop (semantics of Python 3.7 and later).

    The patterns embedded are those made of literal characters, [.],
    escaped punctuation, the quantifiers [*], [+], [?] (greedy and lazy) on
    one character, and top-level alternation; the templates are those
    without a group reference that could be valid.  Whatever else a string
    spells (groups, classes, anchors, counted repetition, class escapes) is
    answered by [Unmodelled], and nothing is proved from that answer.

    [get_logger], [get_db] and [main] run in a process: they are embedded
    as functions of its state (the registry of [logging], the environment,
    what was written to [sys.stderr]), with the part of [logging] they use.
    The database is a parameter. *)

From Stdlib Require Import List Ascii Bool Arith Lia Permutation.
From Stdlib.Strings Require Import Byte.
Import ListNotations.

Set Implicit Arguments.

(** ** Strings *)

(** A Python [str] is a sequence of characters; characters are the 256
    code points of [ascii]. *)
Definition str : Type := list ascii.

Inductive str_literal : Type :=
| lit_nil
| lit_cons (c : ascii) (l : str_literal).

Fixpoint literal_of_bytes (bs : list byte) : str_literal :=
  match bs with
  | [] => lit_nil
  | b :: bs' => lit_cons (ascii_of_byte b) (literal_of_bytes bs')
  end.

Fixpoint bytes_of_literal (l : str_literal) : list byte :=
  match l with
  | lit_nil => []
  | lit_cons c l' => byte_of_ascii c :: bytes_of_literal l'
  end.

Declare Scope str_scope.
Delimit Scope str_scope with str.
#[warnings="-via-type-remapping,-via-type-mismatch"]
String Notation str literal_of_bytes bytes_of_literal
  (via str_literal mapping [[nil] => lit_nil, [cons] => lit_cons]) : str_scope.
Bind Scope str_scope with str.
Open Scope str_scope.

Definition newline : ascii := ascii_of_nat 10.

(** [c in chars] *)
Definition elem (c : ascii) (chars : str) : bool :=
  existsb (Ascii.eqb c) chars.

(** [s.startswith(p)], returning the text after the prefix. *)
Fixpoint strip_prefix (p s : str) : option str :=
  match p, s with
  | [], _ => Some s
  | _ :: _, [] => None
  | x :: p', c :: s' => if Ascii.eqb x c then strip_prefix p' s' else None
  end.

(** ** Outcomes of a call *)

Inductive re_error_kind : Type :=
| NothingToRepeat
| MultipleRepeat
| UnbalancedParenthesis
| BadEscape
| InvalidGroupReference.

Inductive exception : Type :=
| re_error (why : re_error_kind)
| render_error.

(** A call returns a value, raises, or leaves the part of [re] that is
    embedded here ([Unmodelled]: the embedding says nothing about the call). *)
Inductive outcome (A : Type) : Type :=
| Ok (a : A)
| Raises (e : exception)
| Unmodelled.

Arguments Ok {A} a.
Arguments Raises {A} e.
Arguments Unmodelled {A}.

Definition bind {A B : Type} (x : outcome A) (k : A -> outcome B) : outcome B :=
  match x with
  | Ok a => k a
  | Raises e => Raises e
  | Unmodelled => Unmodelled
  end.

Notation "x <- c1 ;; c2" := (bind c1 (fun x => c2))
  (at level 61, c1 at next level, right associativity).

(** * The [re] module

    What follows is Python's, not the repository's: the parser of
    [sre_parse], the matcher and the substitution loop of [_sre]. *)

Module re.

(** ** Parsed patterns (sre_parse) *)

Inductive atom : Type :=
| LITERAL (c : ascii)
| ANY.

Inductive quantifier : Type :=
| Star
| Plus
| Opt.

Inductive piece : Type :=
| One (a : atom)
| MAX_REPEAT (q : quantifier) (a : atom)
| MIN_REPEAT (q : quantifier) (a : atom).

(** The alternatives of a pattern, in the order written. *)
Definition regex : Type := list (list piece).

Definition SPECIAL_CHARS : str := ".\[{()*+?^$|".
Definition DIGITS : str := "0123456789".
Definition ASCII_LETTERS : str :=
  "abcdefghijklmnopqrstuvwxyzABCDEFGHIJKLMNOPQRSTUVWXYZ".

Definition quantifier_of (c : ascii) : option quantifier :=
  if Ascii.eqb c "*" then Some Star
  else if Ascii.eqb c "+" then Some Plus
  else if Ascii.eqb c "?" then Some Opt
  else None.

(** The tokenizer reads one token ahead: a backslash that ends the pattern
    is an error as soon as the token before it is taken (a closing
    parenthesis is looked at, and refused, without being taken). *)
Definition dangling (p : str) : bool :=
  match p with
  | [c] => Ascii.eqb c "\"
  | _ => false
  end.

(** [sre_parse.parse] on the subset: literals, [.], escaped punctuation,
    the quantifiers [*], [+], [?] and their lazy forms on one character, and
    top-level alternation.  [done] holds the finished alternatives and [cur]
    the pieces of the current one, both reversed. *)
Fixpoint parse (done : list (list piece)) (cur : list piece) (p : str)
  : outcome regex :=
  match p with
  | [] => Ok (rev (rev cur :: done))
  | this :: p' =>
    if Ascii.eqb this "\" then
      match p' with
      | [] => Raises (re_error BadEscape)
      | c :: p'' =>
        if dangling p'' then Raises (re_error BadEscape)
        else if elem c ASCII_LETTERS || elem c DIGITS then Unmodelled
        else parse done (One (LITERAL c) :: cur) p''
      end
    else if Ascii.eqb this ")" then Raises (re_error UnbalancedParenthesis)
    else if dangling p' then Raises (re_error BadEscape)
    else if Ascii.eqb this "|" then parse (rev cur :: done) [] p'
    else if negb (elem this SPECIAL_CHARS) then
      parse done (One (LITERAL this) :: cur) p'
    else
      match quantifier_of this with
      | Some q =>
        match cur with
        | [] => Raises (re_error NothingToRepeat)
        | One a :: cur' =>
          match p' with
          | c :: p'' =>
            if Ascii.eqb c "?" then parse done (MIN_REPEAT q a :: cur') p''
            else if Ascii.eqb c "+" then Unmodelled
            else parse done (MAX_REPEAT q a :: cur') p'
          | [] => parse done (MAX_REPEAT q a :: cur') p'
          end
        | _ :: _ => Raises (re_error MultipleRepeat)
        end
      | None =>
        if Ascii.eqb this "." then parse done (One ANY :: cur) p'
        else Unmodelled
      end
  end.

Definition compile (pattern : str) : outcome regex := parse [] [] pattern.

(** ** Replacement templates (sre_parse.parse_template) *)

Definition ESCAPES (c : ascii) : option ascii :=
  if Ascii.eqb c "a" then Some (ascii_of_nat 7)
  else if Ascii.eqb c "b" then Some (ascii_of_nat 8)
  else if Ascii.eqb c "f" then Some (ascii_of_nat 12)
  else if Ascii.eqb c "n" then Some (ascii_of_nat 10)
  else if Ascii.eqb c "r" then Some (ascii_of_nat 13)
  else if Ascii.eqb c "t" then Some (ascii_of_nat 9)
  else if Ascii.eqb c "v" then Some (ascii_of_nat 11)
  else if Ascii.eqb c "\" then Some "\"%char
  else None.

(** The template of a pattern without groups: every group reference is
    invalid. *)
Fixpoint parse_template (t : str) : outcome str :=
  match t with
  | [] => Ok []
  | this :: t' =>
    if Ascii.eqb this "\" then
      match t' with
      | [] => Raises (re_error BadEscape)
      | c :: t'' =>
        if dangling t'' then Raises (re_error BadEscape)
        else if Ascii.eqb c "g" then Unmodelled
        else if Ascii.eqb c "0" then Unmodelled
        else if elem c DIGITS then
          match t'' with
          | d :: _ =>
            if elem d DIGITS then Unmodelled
            else Raises (re_error InvalidGroupReference)
          | [] => Raises (re_error InvalidGroupReference)
          end
        else
          match ESCAPES c with
          | Some x => out <- parse_template t'' ;; Ok (x :: out)
          | None =>
            if elem c ASCII_LETTERS then Raises (re_error BadEscape)
            else out <- parse_template t'' ;; Ok (this :: c :: out)
          end
      end
    else out <- parse_template t' ;; Ok (this :: out)
  end.

(** [pattern_subx] takes a replacement without a backslash as it is. *)
Definition compile_repl (repl : str) : outcome str :=
  if elem "\"%char repl then parse_template repl else Ok repl.

(** ** The matcher (sre) *)

Definition atom_matches (a : atom) (c : ascii) : bool :=
  match a with
  | LITERAL x => Ascii.eqb x c
  | ANY => negb (Ascii.eqb c newline)
  end.

(** The rest of the match: it gets the text not yet consumed, and answers
    with the text left after the whole match, or fails. *)
Definition cont : Type := str -> option str.

Definition one (a : atom) (k : cont) : cont :=
  fun s =>
    match s with
    | c :: s' => if atom_matches a c then k s' else None
    | [] => None
    end.

(** Lazy repetition: the rest of the pattern is tried first. *)
Fixpoint min_star (a : atom) (k : cont) (s : str) : option str :=
  match k s with
  | Some r => Some r
  | None =>
    match s with
    | c :: s' => if atom_matches a c then min_star a k s' else None
    | [] => None
    end
  end.

(** Greedy repetition: the longest run is tried first. *)
Fixpoint max_star (a : atom) (k : cont) (s : str) : option str :=
  match s with
  | c :: s' =>
    if atom_matches a c then
      match max_star a k s' with
      | Some r => Some r
      | None => k s
      end
    else k s
  | [] => k s
  end.

Definition or_else (x y : option str) : option str :=
  match x with
  | Some r => Some r
  | None => y
  end.

Definition match_piece (p : piece) (k : cont) : cont :=
  match p with
  | One a => one a k
  | MAX_REPEAT Star a => max_star a k
  | MAX_REPEAT Plus a => one a (max_star a k)
  | MAX_REPEAT Opt a => fun s => or_else (one a k s) (k s)
  | MIN_REPEAT Star a => min_star a k
  | MIN_REPEAT Plus a => one a (min_star a k)
  | MIN_REPEAT Opt a => fun s => or_else (k s) (one a k s)
  end.

Fixpoint match_branch (ps : list piece) (k : cont) : cont :=
  match ps with
  | [] => k
  | p :: ps' => match_piece p (match_branch ps' k)
  end.

Fixpoint match_alt (rx : regex) (k : cont) (s : str) : option str :=
  match rx with
  | [] => None
  | b :: rx' => or_else (match_branch b k s) (match_alt rx' k s)
  end.

(** End of pattern at top level: with [must_advance] a match that consumed
    nothing of [start] is refused, and the matcher backtracks. *)
Definition accept (must_advance : bool) (start : str) : cont :=
  fun r =>
    if must_advance && (length r =? length start) then None else Some r.

(** [sre search]: the first position from which the pattern matches.  The
    result is the text skipped, the text at the match's start and the text
    left after the match.  Only the first attempt is under [must_advance]. *)
Fixpoint search (rx : regex) (must_advance : bool) (s : str)
  : option (str * str * str) :=
  match match_alt rx (accept must_advance s) s with
  | Some rest => Some ([], s, rest)
  | None =>
    match s with
    | [] => None
    | c :: s' =>
      match search rx false s' with
      | Some (skipped, start, rest) => Some (c :: skipped, start, rest)
      | None => None
      end
    end
  end.

(** One match of the substitution loop: the text copied before it and the
    text it covers. *)
Record found : Type := Found { skipped : str; matched : str }.

(** The loop of [pattern_subx] (count = 0): search, note the match, go on
    after it; after an empty match the next one must advance.  [None] when
    the bound on the iterations is reached. *)
Fixpoint scan_matches (fuel : nat) (rx : regex) (must_advance : bool) (s : str)
  : option (list found * str) :=
  match fuel with
  | 0 => None
  | S fuel' =>
    match search rx must_advance s with
    | None => Some ([], s)
    | Some (pre, start, rest) =>
      let m := firstn (length start - length rest) start in
      match scan_matches fuel' rx (length rest =? length start) rest with
      | Some (ms, tail) => Some (Found pre m :: ms, tail)
      | None => None
      end
    end
  end.

(** Two iterations for each position of the string are enough (see
    [finditer_total]). *)
Definition finditer (rx : regex) (s : str) : option (list found * str) :=
  scan_matches (2 * length s + 2) rx false s.

(** The pieces joined: each match gives way to the replacement. *)
Definition join_sub (repl : str) (ms : list found) (tail : str) : str :=
  flat_map (fun m => skipped m ++ repl) ms ++ tail.

(** [re.sub(pattern, repl, string)] with a string for [repl] and no count. *)
Definition sub (pattern repl string : str) : outcome str :=
  rx <- compile pattern ;;
  template <- compile_repl repl ;;
  match finditer rx string with
  | Some (ms, tail) => Ok (join_sub template ms tail)
  | None => Unmodelled
  end.

End re.

Import re.

(** ** filtered_logger.py *)

Definition PII_FIELDS : list str :=
  ["name"; "email"; "phone"; "ssn"; "password"].

(** [f'{f}=.*?{separator}'] and [f'{f}={redaction}{separator}'] *)
Definition field_pattern (f separator : str) : str :=
  f ++ "=.*?" ++ separator.

Definition field_repl (f redaction separator : str) : str :=
  f ++ "=" ++ redaction ++ separator.

Fixpoint filter_datum (fields : list str) (redaction message separator : str)
  : outcome str :=
  match fields with
  | [] => Ok message
  | f :: fields' =>
    message' <- re.sub (field_pattern f separator)
                       (field_repl f redaction separator) message ;;
    filter_datum fields' redaction message' separator
  end.

Record RedactingFormatter : Type := { fields : list str }.

Section Formatter.

(** [logging.LogRecord] and [logging.Formatter.format], which the class
    inherits. *)
Variable LogRecord : Type.
Variable super_format : LogRecord -> outcome str.

Definition format (self : RedactingFormatter) (record : LogRecord)
  : outcome str :=
  message <- super_format record ;;
  filter_datum (fields self) "XXX" message " ".

End Formatter.

(** The formatter that [get_logger] installs. *)
Definition logger_formatter : RedactingFormatter :=
  {| fields := PII_FIELDS |}.

(** ** logging, as [get_logger] and [main] use it

    Python's, not the repository's: the registry of loggers, handlers that
    write to [sys.stderr], and [Logger.info].  Loggers are objects shared
    through the registry, so a logger is referred to by its name; a handler
    is a new object at each [StreamHandler()], told apart by the number it
    gets when it is made.  Filters, and loggers below another logger (a
    dotted name), are not embedded. *)

Definition NOTSET : nat := 0.
Definition INFO : nat := 20.
Definition WARNING : nat := 30.

(** A record as [Logger.info(msg)] makes it: no arguments, no exception. *)
Record LogRecord : Type := { levelno : nat; msg : str }.

(** [logging.Formatter().format] on such a record: the format is
    ["%(message)s"], and without arguments the message is [msg] itself. *)
Definition Formatter_format (record : LogRecord) : outcome str :=
  Ok (msg record).

Record Handler : Type :=
  { hid : nat; hlevel : nat; formatter : option RedactingFormatter }.

Record Logger : Type :=
  { level : nat; propagate : bool; handlers : list Handler; disabled : bool }.

(** The state of the process that the module reads and writes. *)
Record Process : Type :=
  { environ : str -> option str;          (* os.environ *)
    root : Logger;                        (* logging.root *)
    loggerDict : list (str * Logger);     (* logging.Logger.manager.loggerDict *)
    disable : nat;                        (* what logging.disable set *)
    objects : nat;                        (* handlers made so far *)
    stderr : str }.                       (* what was written to sys.stderr *)

Fixpoint str_eqb (a b : str) : bool :=
  match a, b with
  | [], [] => true
  | x :: a', y :: b' => Ascii.eqb x y && str_eqb a' b'
  | _, _ => false
  end.

Fixpoint lookup (name : str) (d : list (str * Logger)) : option Logger :=
  match d with
  | [] => None
  | (n, l) :: d' => if str_eqb n name then Some l else lookup name d'
  end.

Fixpoint store (name : str) (l : Logger) (d : list (str * Logger))
  : list (str * Logger) :=
  match d with
  | [] => [(name, l)]
  | (n, x) :: d' =>
    if str_eqb n name then (n, l) :: d' else (n, x) :: store name l d'
  end.

(** Code that runs in the process: it returns a value and the next state,
    or raises. *)
Definition M (A : Type) : Type := Process -> outcome (A * Process).

Definition ret {A : Type} (a : A) : M A := fun st => Ok (a, st).

Definition bindM {A B : Type} (m : M A) (k : A -> M B) : M B :=
  fun st =>
    match m st with
    | Ok (a, st') => k a st'
    | Raises e => Raises e
    | Unmodelled => Unmodelled
    end.

Declare Scope proc_scope.
Delimit Scope proc_scope with proc.
Bind Scope proc_scope with M.

Notation "x <- c1 ;; c2" := (bindM c1 (fun x => c2))
  (at level 61, c1 at next level, right associativity) : proc_scope.
Notation "c1 ;; c2" := (bindM c1 (fun _ => c2))
  (at level 61, right associativity) : proc_scope.

Definition set_logger (name : str) (l : Logger) (st : Process) : Process :=
  {| environ := environ st; root := root st;
     loggerDict := store name l (loggerDict st);
     disable := disable st; objects := objects st; stderr := stderr st |}.

Definition write_stderr (text : str) (st : Process) : Process :=
  {| environ := environ st; root := root st; loggerDict := loggerDict st;
     disable := disable st; objects := objects st;
     stderr := stderr st ++ text |}.

(** [logging.getLogger(name)]: the logger of that name, made on first
    use with level [NOTSET], propagating, without handlers. *)
Definition logging_getLogger (name : str) : M str :=
  fun st =>
    if str_eqb name "" || str_eqb name "root" || elem "." name then Unmodelled
    else
      match lookup name (loggerDict st) with
      | Some _ => Ok (name, st)
      | None =>
        Ok (name,
            set_logger name
              {| level := NOTSET; propagate := true; handlers := [];
                 disabled := false |} st)
      end.

(** An attribute of a logger is set. *)
Definition update_logger (logger : str) (f : Logger -> Logger) : M unit :=
  fun st =>
    match lookup logger (loggerDict st) with
    | Some l => Ok (tt, set_logger logger (f l) st)
    | None => Unmodelled
    end.

Definition Logger_setLevel (logger : str) (lvl : nat) : M unit :=
  update_logger logger (fun l =>
    {| level := lvl; propagate := propagate l; handlers := handlers l;
       disabled := disabled l |}).

Definition Logger_set_propagate (logger : str) (b : bool) : M unit :=
  update_logger logger (fun l =>
    {| level := level l; propagate := b; handlers := handlers l;
       disabled := disabled l |}).

(** [logging.StreamHandler()]: a new handler on [sys.stderr]. *)
Definition logging_StreamHandler : M Handler :=
  fun st =>
    Ok ({| hid := objects st; hlevel := NOTSET; formatter := None |},
        {| environ := environ st; root := root st;
           loggerDict := loggerDict st; disable := disable st;
           objects := S (objects st); stderr := stderr st |}).

Definition Handler_setFormatter (h : Handler) (fmt : RedactingFormatter)
  : Handler :=
  {| hid := hid h; hlevel := hlevel h; formatter := Some fmt |}.

(** [Logger.addHandler]: appended unless the same object is there. *)
Definition Logger_addHandler (logger : str) (h : Handler) : M unit :=
  update_logger logger (fun l =>
    {| level := level l; propagate := propagate l;
       handlers :=
         if existsb (fun h' => hid h' =? hid h) (handlers l) then handlers l
         else handlers l ++ [h];
       disabled := disabled l |}).

(** [Handler.format]: the handler's formatter, or the default one. *)
Definition Handler_format (h : Handler) (record : LogRecord) : outcome str :=
  match formatter h with
  | Some fmt => format Formatter_format fmt record
  | None => Formatter_format record
  end.

(** [StreamHandler.emit]: the formatted record and a newline are written.
    When formatting raises, [handleError] writes a traceback instead; its
    text is not embedded. *)
Definition StreamHandler_emit (h : Handler) (record : LogRecord) : M unit :=
  fun st =>
    match Handler_format h record with
    | Ok s => Ok (tt, write_stderr (s ++ [newline]) st)
    | _ => Unmodelled
    end.

Fixpoint for_each {A : Type} (xs : list A) (body : A -> M unit) : M unit :=
  match xs with
  | [] => ret tt
  | x :: xs' => (body x ;; for_each xs' body)%proc
  end.

(** [Logger.callHandlers]: the handlers of the logger, then those of the
    root when the logger propagates; with no handler at all, the handler of
    last resort writes records from [WARNING] up. *)
Definition Logger_callHandlers (l : Logger) (record : LogRecord) : M unit :=
  fun st =>
    match handlers l ++ (if propagate l then handlers (root st) else []) with
    | [] =>
      if WARNING <=? levelno record then
        StreamHandler_emit
          {| hid := 0; hlevel := WARNING; formatter := None |} record st
      else Ok (tt, st)
    | hs =>
      for_each (filter (fun h => hlevel h <=? levelno record) hs)
               (fun h => StreamHandler_emit h record) st
    end.

(** [Logger.isEnabledFor] *)
Definition isEnabledFor (st : Process) (l : Logger) (lvl : nat) : bool :=
  negb (disabled l) && negb (lvl <=? disable st)
  && ((if level l =? NOTSET then level (root st) else level l) <=? lvl).

(** [Logger.info(msg)] *)
Definition Logger_info (logger : str) (message : str) : M unit :=
  fun st =>
    match lookup logger (loggerDict st) with
    | Some l =>
      if isEnabledFor st l INFO then
        Logger_callHandlers l {| levelno := INFO; msg := message |} st
      else Ok (tt, st)
    | None => Unmodelled
    end.

(** The state in which a program starts: [logging] as its import leaves
    it (root logger at [WARNING] without handlers, no other logger), nothing
    written. *)
Definition startup (env : str -> option str) : Process :=
  {| environ := env;
     root := {| level := WARNING; propagate := true; handlers := [];
                disabled := false |};
     loggerDict := []; disable := 0; objects := 0; stderr := "" |}.

(** ** filtered_logger.py, the rest *)

Definition get_logger : M str :=
  (logger <- logging_getLogger "user_data" ;;
   Logger_setLevel logger INFO ;;
   Logger_set_propagate logger false ;;
   stream_handler <- logging_StreamHandler ;;
   Logger_addHandler logger
     (Handler_setFormatter stream_handler {| fields := PII_FIELDS |}) ;;
   ret logger)%proc.

(** The keyword arguments of [mysql.connector.connect]. *)
Record ConnectArgs : Type :=
  { user : str; password : str; host : str; database : option str }.

(** [environ.get(key, default)] and [environ.get(key)] *)
Definition environ_get (key default : str) : M str :=
  fun st =>
    Ok (match environ st key with Some v => v | None => default end, st).

Definition environ_get_opt (key : str) : M (option str) :=
  fun st => Ok (environ st key, st).

(** [' '.join(parts)] *)
Fixpoint join (sep : str) (parts : list str) : str :=
  match parts with
  | [] => []
  | [p] => p
  | p :: ps => p ++ sep ++ join sep ps
  end.

Section Database.

(** The database is outside the program: the values of a row and their
    rendering by an f-string, connections, [mysql.connector.connect], and
    what a dictionary cursor fetches for ["SELECT * FROM users"] (the rows,
    each the columns in order with their values).  The two calls answer
    [None] when they raise: the exceptions of the connector are not
    embedded, and neither is what [main] does then. *)
Variable Value : Type.
Variable str_of : Value -> str.
Variable Connection : Type.
Variable connect : ConnectArgs -> option Connection.
Variable fetch_users : Connection -> option (list (list (str * Value))).

Definition lift {A : Type} (x : option A) : M A :=
  fun st =>
    match x with
    | Some a => Ok (a, st)
    | None => Unmodelled
    end.

Definition get_db : M Connection :=
  (username <- environ_get "PERSONAL_DATA_DB_USERNAME" "root" ;;
   password <- environ_get "PERSONAL_DATA_DB_PASSWORD" "" ;;
   host <- environ_get "PERSONAL_DATA_DB_HOST" "localhost" ;;
   db_name <- environ_get_opt "PERSONAL_DATA_DB_NAME" ;;
   cnx <- lift (connect {| user := username; password := password;
                           host := host; database := db_name |}) ;;
   ret cnx)%proc.

(** [' '.join([f"{key}={value}" for key, value in row.items()])] *)
Definition log_message (row : list (str * Value)) : str :=
  join " " (map (fun kv => fst kv ++ "=" ++ str_of (snd kv)) row).

(** Closing the cursor and the connection leaves the state embedded here
    as it is. *)
Definition main : M unit :=
  (logger <- get_logger ;;
   db <- get_db ;;
   rows <- lift (fetch_users db) ;;
   for_each rows (fun row => Logger_info logger (log_message row)) ;;
   ret tt)%proc.

End Database.

(** ** The scanner the specification describes

    Written from the specification (sections 4.1 and 9), not from the
    source: for each field, locate each occurrence of [field=], scan
    forward to the next separator, and replace that span. *)

(** Scan forward to the next separator, over characters that [allowed]
    admits; the result is the text after the separator. *)
Fixpoint after_separator (allowed : ascii -> bool) (sep s : str) : option str :=
  match strip_prefix sep s with
  | Some r => Some r
  | None =>
    match s with
    | [] => None
    | c :: s' => if allowed c then after_separator allowed sep s' else None
    end
  end.

(** A span [f=value sep] at the head of [s]; the result is the text after
    it. *)
Definition span_at (allowed : ascii -> bool) (f sep s : str) : option str :=
  match strip_prefix (f ++ "=") s with
  | Some v => after_separator allowed sep v
  | None => None
  end.

(** Left to right: a span is replaced and the scan goes on after it, any
    other character is copied. *)
Fixpoint spec_scan (fuel : nat) (allowed : ascii -> bool)
    (f redaction sep s : str) : str :=
  match fuel with
  | 0 => s
  | S fuel' =>
    match span_at allowed f sep s with
    | Some rest =>
      f ++ "=" ++ redaction ++ sep
        ++ spec_scan fuel' allowed f redaction sep rest
    | None =>
      match s with
      | [] => []
      | c :: s' => c :: spec_scan fuel' allowed f redaction sep s'
      end
    end
  end.

(** Every step of the scan consumes a character, so the length of the
    input bounds it (see [spec_redact_field_eq]). *)
Definition spec_redact_field (allowed : ascii -> bool)
    (f redaction sep s : str) : str :=
  spec_scan (length s) allowed f redaction sep s.

(** For each field name in order. *)
Fixpoint spec_redact (allowed : ascii -> bool) (fields : list str)
    (redaction message sep : str) : str :=
  match fields with
  | [] => message
  | f :: fields' =>
    spec_redact allowed fields' redaction
      (spec_redact_field allowed f redaction sep message) sep
  end.

(** The value of a span as the specification words it (any characters up to
    the next separator) and as [.] reads it (any characters but a newline). *)
Definition any_char (c : ascii) : bool := true.
Definition not_newline (c : ascii) : bool := negb (Ascii.eqb c newline).

(** ** Conditions on the arguments *)

(** No character of [s] has a meaning in a pattern. *)
Definition plain (s : str) : bool :=
  forallb (fun c => negb (elem c SPECIAL_CHARS)) s.

Definition no_backslash (s : str) : bool := negb (elem "\"%char s).

(** [sep in t] *)
Fixpoint occurs (sep t : str) : bool :=
  match strip_prefix sep t with
  | Some _ => true
  | None =>
    match t with
    | [] => false
    | _ :: t' => occurs sep t'
    end
  end.

(** The separator character or a newline. *)
Definition delim (sp c : ascii) : bool :=
  Ascii.eqb c sp || Ascii.eqb c newline.

(** [s] holds neither. *)
Definition free (sp : ascii) (s : str) : bool :=
  forallb (fun c => negb (delim sp c)) s.

(** What the scanner does to a text [w] that the next separator ends: from
    the first [token] on, it is replaced by [rep]. *)
Fixpoint cell (token rep w : str) : str :=
  match strip_prefix token w with
  | Some _ => rep
  | None =>
    match w with
    | [] => []
    | c :: w' => c :: cell token rep w'
    end
  end.

(** Two field names whose passes do not interfere: the first character of
    each [name=] is absent from what the other pass writes, and neither
    holds the separator character or a newline. *)
Definition independent (a b red : str) (sp : ascii) : bool :=
  match a ++ "=", b ++ "=" with
  | a0 :: _, b0 :: _ =>
    negb (elem a0 (b ++ "=" ++ red)) && negb (elem b0 (a ++ "=" ++ red))
    && free sp (a ++ "=" ++ red) && free sp (b ++ "=" ++ red)
    && negb (Ascii.eqb sp newline)
  | _, _ => false
  end.

(** The pattern of a field, parsed. *)
Definition literals (s : str) : list piece :=
  map (fun c => One (LITERAL c)) s.

Definition field_regex (f sep : str) : regex :=
  [literals f ++ One (LITERAL "=") :: MIN_REPEAT Star ANY :: literals sep].

(** The matches that the pass for field [f] replaces in [message]: those
    of [re.finditer] for the field's pattern, each with the text copied
    before it, and the text left after the last one. *)
Definition field_matches (f separator message : str)
  : outcome (list found * str) :=
  rx <- re.compile (field_pattern f separator) ;;
  match re.finditer rx message with
  | Some r => Ok r
  | None => Unmodelled
  end.

(** The shape of a well-delimited match: the field name, [=], a value
    that holds no newline and in which the separator does not start, and the
    separator. *)
Definition delimited (f sep m : str) : Prop :=
  exists v,
    m = f ++ "=" ++ v ++ sep /\
    ~ In newline v /\
    (forall u w, v ++ sep = u ++ sep ++ w -> w = []).

(** What the continuation [k] answers was answered by [k0] on a text that
    is no longer: the matcher only moves forward. *)
Definition reaches (k k0 : cont) : Prop :=
  forall s r, k s = Some r -> exists x, k0 x = Some r /\ length x <= length s.

(** One token of a concrete pattern through [parse]. *)
Ltac parse_step :=
  cbn [parse Ascii.eqb Bool.eqb negb elem existsb SPECIAL_CHARS
       quantifier_of orb].

(** ** Cells and columns

    Vocabulary for the properties of whole messages: with a separator of
    one character a message is a sequence of cells, the texts between
    separators. *)

(** The passes of a field list on a cell, one after the other. *)
Fixpoint cells (fields : list str) (red w : str) : str :=
  match fields with
  | [] => w
  | f :: fields' => cells fields' red (cell (f ++ "=") (f ++ "=" ++ red) w)
  end.

(** [key.endswith(f)] *)
Fixpoint endswith (key f : str) : bool :=
  str_eqb key f
  || match key with
     | [] => false
     | _ :: key' => endswith key' f
     end.

(** A column [key=value] with the value masked when the key ends with a
    listed field name. *)
Definition mask (fields : list str) (red key value : str) : str :=
  key ++ "=" ++ (if existsb (endswith key) fields then red else value).

(** No separator character, no newline and no [=]. *)
Definition clean (sp : ascii) (s : str) : bool :=
  free sp s && negb (elem "=" s).

(** * Properties *)

(** ** Characters and prefixes *)

Lemma elem_app (c : ascii) (a b : str) :
  elem c (a ++ b) = elem c a || elem c b.
Proof. unfold elem. apply existsb_app. Qed.

Lemma strip_prefix_app (p s : str) : strip_prefix p (p ++ s) = Some s.
Proof.
  induction p as [|x p IH]; simpl.
  - now destruct s.
  - now rewrite Ascii.eqb_refl.
Qed.

Lemma strip_prefix_Some (p s r : str) :
  strip_prefix p s = Some r -> s = p ++ r.
Proof.
  revert s. induction p as [|x p IH]; intros s H.
  - destruct s; simpl in H; now inversion H.
  - destruct s as [|c s]; simpl in H; [discriminate|].
    destruct (Ascii.eqb x c) eqn:E; [|discriminate].
    apply Ascii.eqb_eq in E. subst c. simpl. f_equal. now apply IH.
Qed.

Lemma strip_prefix_None (p s r : str) :
  strip_prefix p s = None -> s <> p ++ r.
Proof.
  intros H E. subst s. rewrite strip_prefix_app in H. discriminate.
Qed.

Lemma strip_prefix_app_l (p q s : str) :
  strip_prefix (p ++ q) s =
  match strip_prefix p s with
  | Some r => strip_prefix q r
  | None => None
  end.
Proof.
  revert s. induction p as [|x p IH]; intros s; simpl.
  - now destruct s, q.
  - destruct s as [|c s]; [reflexivity|].
    destruct (Ascii.eqb x c); [apply IH | reflexivity].
Qed.

(** ** The parser on plain text *)

Lemma plain_cons (c : ascii) (s : str) :
  plain (c :: s) = true -> elem c SPECIAL_CHARS = false /\ plain s = true.
Proof.
  unfold plain. simpl forallb. rewrite andb_true_iff, negb_true_iff. tauto.
Qed.

Lemma not_special (c : ascii) :
  elem c SPECIAL_CHARS = false ->
  Ascii.eqb c "\" = false /\ Ascii.eqb c ")" = false /\ Ascii.eqb c "|" = false.
Proof.
  unfold elem, SPECIAL_CHARS. simpl. rewrite !orb_false_iff. tauto.
Qed.

Lemma plain_no_backslash (s : str) : plain s = true -> elem "\" s = false.
Proof.
  induction s as [|c s IH]; intros H; [reflexivity|].
  apply plain_cons in H. destruct H as [Hc Hs].
  apply not_special in Hc. destruct Hc as [Hb _].
  unfold elem. cbn [existsb]. rewrite Ascii.eqb_sym, Hb. now apply IH.
Qed.

Lemma dangling_no_backslash (p : str) : elem "\" p = false -> dangling p = false.
Proof.
  destruct p as [|c [|d p]]; try reflexivity.
  unfold elem. cbn [existsb dangling]. rewrite orb_false_r, Ascii.eqb_sym. trivial.
Qed.

Lemma parse_plain (p : str) :
  forall done cur rest,
    plain p = true -> elem "\" rest = false ->
    parse done cur (p ++ rest) = parse done (rev (literals p) ++ cur) rest.
Proof.
  induction p as [|c p IH]; intros done cur rest Hp Hr; [reflexivity|].
  apply plain_cons in Hp. destruct Hp as [Hc Hp].
  destruct (not_special c Hc) as [Hb [Hpar Hbar]].
  assert (Hd : dangling (p ++ rest) = false).
  { apply dangling_no_backslash. rewrite elem_app, Hr.
    now rewrite (plain_no_backslash p Hp). }
  cbn [app parse]. rewrite Hb, Hpar, Hd, Hbar, Hc. cbn [negb].
  rewrite IH by assumption. cbn [literals map rev]. now rewrite <- app_assoc.
Qed.

Lemma re_compile_field (f sep : str) :
  plain f = true -> plain sep = true ->
  re.compile (field_pattern f sep) = Ok (field_regex f sep).
Proof.
  intros Hf Hs. unfold re.compile, field_pattern, field_regex.
  pose proof (plain_no_backslash sep Hs) as Hb.
  rewrite parse_plain; [| assumption | now rewrite elem_app, Hb].
  change ("=.*?" ++ sep) with ("="%char :: "."%char :: "*"%char :: "?"%char :: sep).
  assert (Hd1 : dangling ("."%char :: "*"%char :: "?"%char :: sep) = false)
    by reflexivity.
  assert (Hd2 : dangling ("*"%char :: "?"%char :: sep) = false) by reflexivity.
  assert (Hd3 : dangling ("?"%char :: sep) = false) by now destruct sep.
  parse_step. rewrite Hd1. parse_step. rewrite Hd2. parse_step.
  rewrite Hd3. parse_step.
  rewrite <- (app_nil_r sep) at 1.
  rewrite parse_plain; [| assumption | reflexivity].
  cbn [parse rev app].
  rewrite app_nil_r, rev_app_distr, rev_involutive. cbn [rev].
  now rewrite rev_involutive, <- !app_assoc.
Qed.

Lemma compile_repl_plain (t : str) : elem "\" t = false -> compile_repl t = Ok t.
Proof. intros H. unfold compile_repl. now rewrite H. Qed.

Lemma field_repl_no_backslash (f red sep : str) :
  plain f = true -> no_backslash red = true -> plain sep = true ->
  elem "\" (field_repl f red sep) = false.
Proof.
  intros Hf Hr Hs. unfold field_repl, no_backslash in *.
  apply negb_true_iff in Hr.
  rewrite !elem_app, Hr, (plain_no_backslash f Hf), (plain_no_backslash sep Hs).
  reflexivity.
Qed.

(** ** The matcher on a field's pattern *)

Lemma match_branch_app (ps qs : list piece) (k : cont) :
  match_branch (ps ++ qs) k = match_branch ps (match_branch qs k).
Proof.
  induction ps as [|p ps IH]; [reflexivity|].
  cbn [app match_branch]. now rewrite IH.
Qed.

Lemma match_literals (p : str) (k : cont) (s : str) :
  match_branch (literals p) k s =
  match strip_prefix p s with
  | Some r => k r
  | None => None
  end.
Proof.
  revert s. induction p as [|x p IH]; intros s.
  - now destruct s.
  - cbn [literals map match_branch match_piece strip_prefix]. unfold one.
    destruct s as [|c s]; [reflexivity|]. cbn [atom_matches].
    destruct (Ascii.eqb x c); [apply IH | reflexivity].
Qed.

Lemma min_star_separator (sep start v : str) :
  min_star ANY (match_branch (literals sep) (accept false start)) v =
  after_separator not_newline sep v.
Proof.
  induction v as [|c v IH]; cbn [min_star after_separator];
    rewrite match_literals.
  - now destruct (strip_prefix sep []).
  - destruct (strip_prefix sep (c :: v)); [reflexivity|].
    cbn [atom_matches]. fold (not_newline c).
    destruct (not_newline c); [apply IH | reflexivity].
Qed.

Lemma match_field (f sep start s : str) :
  match_alt (field_regex f sep) (accept false start) s =
  span_at not_newline f sep s.
Proof.
  unfold field_regex, span_at. cbn [match_alt].
  rewrite match_branch_app, match_literals, strip_prefix_app_l.
  destruct (strip_prefix f s) as [r|]; [|reflexivity].
  cbn [match_branch match_piece strip_prefix]. unfold one.
  destruct r as [|c r]; [reflexivity|]. cbn [atom_matches].
  destruct (Ascii.eqb "=" c); [|reflexivity].
  rewrite min_star_separator.
  now destruct (after_separator not_newline sep r).
Qed.

(** ** The scanner *)

Lemma strip_prefix_length (p s r : str) :
  strip_prefix p s = Some r -> length s = length p + length r.
Proof.
  intros H. apply strip_prefix_Some in H. subst s. apply length_app.
Qed.

Lemma after_separator_length (allowed : ascii -> bool) (sep s r : str) :
  after_separator allowed sep s = Some r -> length r <= length s.
Proof.
  revert r. induction s as [|c s IH]; intros r H; cbn [after_separator] in H.
  - destruct (strip_prefix sep []) eqn:E; [|discriminate].
    inversion H; subst. apply strip_prefix_length in E. lia.
  - destruct (strip_prefix sep (c :: s)) eqn:E.
    + inversion H; subst. apply strip_prefix_length in E. lia.
    + destruct (allowed c); [|discriminate].
      apply IH in H. cbn [length]. lia.
Qed.

Lemma span_at_length (allowed : ascii -> bool) (f sep s r : str) :
  span_at allowed f sep s = Some r -> length r < length s.
Proof.
  unfold span_at. intros H.
  destruct (strip_prefix (f ++ "=") s) as [v|] eqn:E; [|discriminate].
  apply strip_prefix_length in E. apply after_separator_length in H.
  rewrite length_app in E. cbn [length] in E. lia.
Qed.

(** The value of a span: free of newlines, and the separator that ends it
    is the first one. *)
Lemma after_separator_value (sep s r : str) :
  after_separator not_newline sep s = Some r ->
  exists v,
    s = v ++ sep ++ r /\
    ~ In newline v /\
    (forall u w, v ++ sep = u ++ sep ++ w -> w = []).
Proof.
  revert r. induction s as [|c s IH]; intros r H; cbn [after_separator] in H.
  - destruct (strip_prefix sep []) eqn:E; [|discriminate].
    inversion H; subst. apply strip_prefix_Some in E. exists []. cbn [app].
    repeat split; [assumption | easy |].
    intros u w Hw. apply (f_equal (@length ascii)) in Hw.
    rewrite !length_app in Hw. destruct w; [reflexivity | cbn [length] in Hw; lia].
  - destruct (strip_prefix sep (c :: s)) eqn:E.
    + inversion H; subst. apply strip_prefix_Some in E. exists []. cbn [app].
      repeat split; [assumption | easy |].
      intros u w Hw. apply (f_equal (@length ascii)) in Hw.
      rewrite !length_app in Hw.
      destruct w; [reflexivity | cbn [length] in Hw; lia].
    + destruct (not_newline c) eqn:Hc; [|discriminate].
      destruct (IH r H) as [v [Hs [Hn Hmin]]]. exists (c :: v).
      repeat split.
      * cbn [app]. now f_equal.
      * intros [Hin|Hin]; [|now apply Hn].
        subst c. unfold not_newline in Hc. now rewrite Ascii.eqb_refl in Hc.
      * intros u w Hw. destruct u as [|c' u].
        -- exfalso. apply (@strip_prefix_None sep (c :: s) (w ++ r) E).
           rewrite Hs. cbn [app] in Hw |- *.
           rewrite (app_assoc sep w r), <- Hw. cbn [app].
           now rewrite <- app_assoc.
        -- cbn [app] in Hw. inversion Hw. now apply (Hmin u w).
Qed.

Lemma spec_scan_nil (allowed : ascii -> bool) (f red sep : str) (n : nat) :
  spec_scan n allowed f red sep [] = [].
Proof.
  destruct n; [reflexivity|]. cbn [spec_scan].
  destruct (span_at allowed f sep []) eqn:E; [|reflexivity].
  apply span_at_length in E. cbn [length] in E. lia.
Qed.

Lemma spec_scan_fuel (allowed : ascii -> bool) (f red sep : str) :
  forall n m s,
    length s <= n -> length s <= m ->
    spec_scan n allowed f red sep s = spec_scan m allowed f red sep s.
Proof.
  induction n as [|n IH]; intros m s Hn Hm.
  - destruct s; [|cbn [length] in Hn; lia]. now rewrite !spec_scan_nil.
  - destruct m as [|m].
    + destruct s; [|cbn [length] in Hm; lia]. now rewrite !spec_scan_nil.
    + cbn [spec_scan]. destruct (span_at allowed f sep s) as [r|] eqn:E.
      * apply span_at_length in E. do 4 f_equal. apply IH; lia.
      * destruct s as [|c s]; [reflexivity|]. f_equal.
        cbn [length] in Hn, Hm. apply IH; lia.
Qed.

(** The scanner's defining equation, free of fuel. *)
Lemma spec_redact_field_eq (allowed : ascii -> bool) (f red sep s : str) :
  spec_redact_field allowed f red sep s =
  match span_at allowed f sep s with
  | Some rest => f ++ "=" ++ red ++ sep ++ spec_redact_field allowed f red sep rest
  | None =>
    match s with
    | [] => []
    | c :: s' => c :: spec_redact_field allowed f red sep s'
    end
  end.
Proof.
  unfold spec_redact_field. destruct s as [|c s].
  - rewrite spec_scan_nil. destruct (span_at allowed f sep []) eqn:E;
      [|reflexivity].
    apply span_at_length in E. cbn [length] in E. lia.
  - cbn [length spec_scan]. destruct (span_at allowed f sep (c :: s)) eqn:E;
      [|reflexivity].
    apply span_at_length in E. cbn [length] in E. do 4 f_equal.
    apply spec_scan_fuel; lia.
Qed.

(** ** One pass of [filter_datum] over a plain field and separator *)

Lemma firstn_minus_rest (a b : str) :
  firstn (length (a ++ b) - length b) (a ++ b) = a.
Proof.
  rewrite length_app.
  replace (length a + length b - length b) with (length a + 0) by lia.
  rewrite firstn_app_2. cbn [firstn]. apply app_nil_r.
Qed.

Lemma span_at_delimited (f sep start rest : str) :
  span_at not_newline f sep start = Some rest ->
  exists m, start = m ++ rest /\ delimited f sep m.
Proof.
  unfold span_at. intros H.
  destruct (strip_prefix (f ++ "=") start) as [v0|] eqn:E; [|discriminate].
  apply strip_prefix_Some in E.
  destruct (after_separator_value _ _ H) as [v [Hv [Hn Hmin]]].
  exists (f ++ "=" ++ v ++ sep). split.
  - rewrite E, Hv. now rewrite <- !app_assoc.
  - exists v. auto.
Qed.

Section FieldPass.

Variables f red sep : str.

Lemma search_field_None (s : str) :
  search (field_regex f sep) false s = None ->
  spec_redact_field not_newline f red sep s = s.
Proof.
  induction s as [|c s IH]; intros H; cbn [search] in H;
    rewrite match_field in H; rewrite spec_redact_field_eq.
  - now destruct (span_at not_newline f sep []).
  - destruct (span_at not_newline f sep (c :: s)); [discriminate|].
    destruct (search (field_regex f sep) false s) as [[[? ?] ?]|];
      [discriminate|].
    now rewrite IH.
Qed.

Lemma search_field_Some (s pre start rest : str) :
  search (field_regex f sep) false s = Some (pre, start, rest) ->
  s = pre ++ start /\
  span_at not_newline f sep start = Some rest /\
  spec_redact_field not_newline f red sep s =
    pre ++ field_repl f red sep ++ spec_redact_field not_newline f red sep rest.
Proof.
  revert pre. induction s as [|c s IH]; intros pre H; cbn [search] in H;
    rewrite match_field in H; rewrite (spec_redact_field_eq _ f red sep).
  - destruct (span_at not_newline f sep []) eqn:E; [|discriminate].
    inversion H; subst. unfold field_repl. now rewrite <- !app_assoc.
  - destruct (span_at not_newline f sep (c :: s)) eqn:E.
    + inversion H; subst. unfold field_repl. now rewrite <- !app_assoc.
    + destruct (search (field_regex f sep) false s)
        as [[[pre' start'] rest']|]; [|discriminate].
      inversion H; subst.
      destruct (IH pre' eq_refl) as [Hs [Hspan HR]].
      repeat split; [cbn [app]; now f_equal | assumption |].
      cbn [app]. now f_equal.
Qed.

Lemma pass_matches :
  forall n s,
    length s < n ->
    exists ms tail,
      scan_matches n (field_regex f sep) false s = Some (ms, tail) /\
      join_sub (field_repl f red sep) ms tail =
        spec_redact_field not_newline f red sep s /\
      s = flat_map (fun m => skipped m ++ matched m) ms ++ tail /\
      Forall (fun m => delimited f sep (matched m)) ms.
Proof.
  induction n as [|n IH]; intros s Hlen; [lia|].
  cbn [scan_matches].
  destruct (search (field_regex f sep) false s) as [[[pre start] rest]|] eqn:E.
  - destruct (search_field_Some _ E) as [Hs [Hspan HR]].
    pose proof (span_at_length _ _ _ _ Hspan) as Hlt.
    destruct (span_at_delimited _ _ _ Hspan) as [m [Hm Hd]].
    assert (Hne : (length rest =? length start) = false)
      by (apply Nat.eqb_neq; lia).
    rewrite Hne.
    destruct (IH rest) as [ms [tail [Hscan [Hjoin [Hcover Hall]]]]].
    { subst s. rewrite length_app in Hlen. lia. }
    rewrite Hscan. eexists. eexists. split; [reflexivity|].
    assert (Hf : firstn (length start - length rest) start = m)
      by (rewrite Hm; apply firstn_minus_rest).
    rewrite Hf. unfold join_sub in *. cbn [flat_map skipped matched].
    repeat split.
    + rewrite HR, <- Hjoin. now rewrite <- !app_assoc.
    + rewrite Hs, Hm, Hcover at 1. now rewrite <- !app_assoc.
    + constructor; assumption.
  - exists [], s. repeat split.
    + unfold join_sub. cbn [flat_map app]. symmetry.
      now apply search_field_None.
    + constructor.
Qed.

Lemma finditer_field (s : str) :
  exists ms tail,
    finditer (field_regex f sep) s = Some (ms, tail) /\
    join_sub (field_repl f red sep) ms tail =
      spec_redact_field not_newline f red sep s /\
    s = flat_map (fun m => skipped m ++ matched m) ms ++ tail /\
    Forall (fun m => delimited f sep (matched m)) ms.
Proof. apply pass_matches. lia. Qed.

Lemma re_sub_field (s : str) :
  plain f = true -> no_backslash red = true -> plain sep = true ->
  re.sub (field_pattern f sep) (field_repl f red sep) s =
  Ok (spec_redact_field not_newline f red sep s).
Proof.
  intros Hf Hr Hs. unfold re.sub.
  rewrite re_compile_field by assumption. cbn [bind].
  rewrite compile_repl_plain by now apply field_repl_no_backslash.
  cbn [bind].
  destruct (finditer_field s) as [ms [tail [Hit [Hjoin _]]]].
  now rewrite Hit, Hjoin.
Qed.

End FieldPass.

Lemma filter_datum_plain (fields : list str) (red sep : str) :
  forallb plain fields = true -> no_backslash red = true -> plain sep = true ->
  forall message,
    filter_datum fields red message sep =
    Ok (spec_redact not_newline fields red message sep).
Proof.
  intros Hf Hr Hs. induction fields as [|f fields IH]; intros message;
    [reflexivity|].
  cbn [forallb] in Hf. apply andb_true_iff in Hf. destruct Hf as [Hf Hfs].
  cbn [filter_datum spec_redact]. rewrite re_sub_field by assumption.
  cbn [bind]. now apply IH.
Qed.

(** [filter_datum] is the sequence of its one-field passes. *)
Lemma filter_datum_cons (f : str) (fields : list str) (red message sep : str) :
  filter_datum (f :: fields) red message sep =
  (message' <- filter_datum [f] red message sep ;;
   filter_datum fields red message' sep).
Proof.
  cbn [filter_datum].
  now destruct (re.sub (field_pattern f sep) (field_repl f red sep) message).
Qed.

(** ** The substitution loop ends within its bound, whatever the pattern *)

Lemma reaches_refl (k : cont) : reaches k k.
Proof. intros s r H. exists s. auto. Qed.

Lemma reaches_one (a : atom) (k k0 : cont) :
  reaches k k0 -> reaches (one a k) k0.
Proof.
  intros Hk s r H. unfold one in H. destruct s as [|c s]; [discriminate|].
  destruct (atom_matches a c); [|discriminate].
  destruct (Hk _ _ H) as [x [Hx Hl]]. exists x. cbn [length]. split; [easy | lia].
Qed.

Lemma reaches_min_star (a : atom) (k k0 : cont) :
  reaches k k0 -> reaches (min_star a k) k0.
Proof.
  intros Hk s. induction s as [|c s IH]; intros r H; cbn [min_star] in H.
  - destruct (k []) eqn:E; [|discriminate]. inversion H; subst. now apply Hk.
  - destruct (k (c :: s)) eqn:E.
    + inversion H; subst. now apply Hk.
    + destruct (atom_matches a c); [|discriminate].
      destruct (IH _ H) as [x [Hx Hl]]. exists x. cbn [length].
      split; [easy | lia].
Qed.

Lemma reaches_max_star (a : atom) (k k0 : cont) :
  reaches k k0 -> reaches (max_star a k) k0.
Proof.
  intros Hk s. induction s as [|c s IH]; intros r H; cbn [max_star] in H.
  - now apply Hk.
  - destruct (atom_matches a c); [|now apply Hk].
    destruct (max_star a k s) eqn:E; [|now apply Hk].
    inversion H; subst. destruct (IH _ eq_refl) as [x [Hx Hl]].
    exists x. cbn [length]. split; [easy | lia].
Qed.

Lemma reaches_or_else (k1 k2 k0 : cont) :
  reaches k1 k0 -> reaches k2 k0 -> reaches (fun s => or_else (k1 s) (k2 s)) k0.
Proof.
  intros H1 H2 s r H. cbn beta in H. destruct (k1 s) eqn:E; cbn [or_else] in H.
  - inversion H; subst. now apply H1.
  - now apply H2.
Qed.

Lemma reaches_piece (p : piece) (k k0 : cont) :
  reaches k k0 -> reaches (match_piece p k) k0.
Proof.
  intros Hk. destruct p as [a | [| |] a | [| |] a]; cbn [match_piece].
  - now apply reaches_one.
  - now apply reaches_max_star.
  - now apply reaches_one, reaches_max_star.
  - apply reaches_or_else; [now apply reaches_one | assumption].
  - now apply reaches_min_star.
  - now apply reaches_one, reaches_min_star.
  - apply reaches_or_else; [assumption | now apply reaches_one].
Qed.

Lemma reaches_branch (ps : list piece) (k0 : cont) :
  reaches (match_branch ps k0) k0.
Proof.
  induction ps as [|p ps IH]; cbn [match_branch];
    [apply reaches_refl | now apply reaches_piece].
Qed.

Lemma reaches_alt (rx : regex) (k0 : cont) : reaches (match_alt rx k0) k0.
Proof.
  induction rx as [|b rx IH]; intros s r H; cbn [match_alt] in H;
    [discriminate|].
  destruct (match_branch b k0 s) eqn:E; cbn [or_else] in H.
  - inversion H; subst. now apply (reaches_branch b k0).
  - now apply IH.
Qed.

Lemma match_alt_shorter (rx : regex) (must_advance : bool) (s rest : str) :
  match_alt rx (accept must_advance s) s = Some rest ->
  length rest <= length s /\
  (must_advance = true -> length rest < length s).
Proof.
  intros H. destruct (reaches_alt rx _ _ H) as [x [Hx Hl]].
  unfold accept in Hx.
  destruct (must_advance && (length x =? length s)) eqn:E; [discriminate|].
  inversion Hx; subst. split; [assumption|].
  intros ->. cbn [andb] in E. apply Nat.eqb_neq in E. lia.
Qed.

Lemma search_shorter (rx : regex) :
  forall s must_advance pre start rest,
    search rx must_advance s = Some (pre, start, rest) ->
    s = pre ++ start /\
    length rest <= length start /\
    (must_advance = true -> pre = [] -> length rest < length start).
Proof.
  induction s as [|c s IH]; intros must_advance pre start rest H;
    cbn [search] in H.
  - destruct (match_alt rx (accept must_advance []) []) eqn:E; [|discriminate].
    inversion H; subst. apply match_alt_shorter in E. cbn [app]. tauto.
  - destruct (match_alt rx (accept must_advance (c :: s)) (c :: s)) eqn:E.
    + inversion H; subst. apply match_alt_shorter in E. cbn [app]. tauto.
    + destruct (search rx false s) as [[[pre' start'] rest']|] eqn:E';
        [|discriminate].
      inversion H; subst. destruct (IH _ _ _ _ E') as [Hs [Hl _]].
      repeat split; [cbn [app]; now f_equal | assumption | discriminate].
Qed.

Lemma scan_matches_total (rx : regex) :
  forall n (must_advance : bool) (s : str),
    2 * length s + (if must_advance then 0 else 1) < n ->
    exists r, scan_matches n rx must_advance s = Some r.
Proof.
  induction n as [|n IH]; intros must_advance s Hn; [lia|].
  cbn [scan_matches].
  destruct (search rx must_advance s) as [[[pre start] rest]|] eqn:E;
    [|now exists ([], s)].
  destruct (search_shorter _ _ _ E) as [Hs [Hl Hadv]].
  destruct (IH (length rest =? length start) rest) as [[ms tail] Hr].
  - subst s. rewrite length_app in Hn.
    destruct (length rest =? length start) eqn:Eq.
    + apply Nat.eqb_eq in Eq. destruct must_advance; [|lia].
      destruct pre; [specialize (Hadv eq_refl eq_refl) | cbn [length] in Hn]; lia.
    + apply Nat.eqb_neq in Eq. destruct must_advance; lia.
  - rewrite Hr. now eexists.
Qed.

Lemma finditer_total (rx : regex) (s : str) :
  exists r, finditer rx s = Some r.
Proof. apply scan_matches_total. lia. Qed.

Lemma re_sub_compiled (pattern repl s : str) (rx : regex) (template : str) :
  re.compile pattern = Ok rx -> compile_repl repl = Ok template ->
  exists out, re.sub pattern repl s = Ok out.
Proof.
  intros Hp Hr. unfold re.sub. rewrite Hp, Hr. cbn [bind].
  destruct (finditer_total rx s) as [[ms tail] H]. rewrite H. now eexists.
Qed.

(** ** Text after the last separator *)

Lemma occurs_prefix (sep t r : str) :
  strip_prefix sep t = Some r -> occurs sep t = true.
Proof. intros H. destruct t; cbn [occurs]; now rewrite H. Qed.

Lemma occurs_intro (sep a b : str) : occurs sep (a ++ sep ++ b) = true.
Proof.
  induction a as [|c a IH]; cbn [app].
  - apply occurs_prefix with b. apply strip_prefix_app.
  - cbn [occurs]. now destruct (strip_prefix sep (c :: a ++ sep ++ b)).
Qed.

Lemma occurs_app_r (sep a b : str) :
  occurs sep (a ++ b) = false -> occurs sep b = false.
Proof.
  induction a as [|c a IH]; intros H; [assumption|].
  cbn [app occurs] in H.
  destruct (strip_prefix sep (c :: a ++ b)); [discriminate | now apply IH].
Qed.

Section Tail.

Variables f red sep : str.

Lemma span_at_occurs (s r : str) :
  span_at not_newline f sep s = Some r -> occurs sep s = true.
Proof.
  intros H. destruct (span_at_delimited _ _ _ H) as [m [Hs [v [Hm _]]]].
  subst s m. rewrite <- !app_assoc.
  rewrite (app_assoc f), (app_assoc (f ++ "=")). apply occurs_intro.
Qed.

Lemma spec_redact_field_no_sep (s : str) :
  occurs sep s = false -> spec_redact_field not_newline f red sep s = s.
Proof.
  induction s as [|c s IH]; intros H; rewrite spec_redact_field_eq.
  - destruct (span_at not_newline f sep []) eqn:E; [|reflexivity].
    apply span_at_occurs in E. congruence.
  - destruct (span_at not_newline f sep (c :: s)) eqn:E.
    + apply span_at_occurs in E. congruence.
    + f_equal. apply IH. now apply (occurs_app_r sep [c] s).
Qed.

Lemma spec_redact_field_tail :
  forall n s p t,
    length s < n -> s = p ++ t -> occurs sep t = false ->
    exists out, spec_redact_field not_newline f red sep s = out ++ t.
Proof.
  induction n as [|n IH]; intros s p t Hn Hs Ht; [lia|].
  rewrite spec_redact_field_eq.
  destruct (span_at not_newline f sep s) as [r|] eqn:E.
  - pose proof (span_at_length _ _ _ _ E) as Hlt.
    destruct (span_at_delimited _ _ _ E) as [m [Hm [v [Hv _]]]].
    rewrite Hs in Hm. symmetry in Hm.
    destruct (app_eq_app _ _ _ _ Hm) as [l [[H1 H2]|[H1 H2]]].
    + (* the separator of the span reaches into [t] *)
      rewrite Hv in H1.
      replace (f ++ "=" ++ v ++ sep) with ((f ++ "=" ++ v) ++ sep) in H1
        by now rewrite <- !app_assoc.
      destruct (app_eq_app _ _ _ _ H1) as [l' [[H3 H4]|[H3 H4]]].
      * exfalso. subst t l. rewrite <- app_assoc, occurs_intro in Ht.
        discriminate.
      * rewrite spec_redact_field_no_sep
          by (subst t; now apply (occurs_app_r sep l r)).
        exists (f ++ "=" ++ red ++ l'). subst t. rewrite H4.
        now rewrite <- !app_assoc.
    + (* [t] lies after the span *)
      destruct (IH r l t) as [out Hout]; [lia | assumption | assumption |].
      exists (f ++ "=" ++ red ++ sep ++ out). rewrite Hout.
      now rewrite <- !app_assoc.
  - destruct s as [|c s].
    + exists []. symmetry in Hs. apply app_eq_nil in Hs.
      destruct Hs as [_ Hs]. now rewrite Hs.
    + destruct p as [|c' p].
      * exists []. cbn [app] in Hs |- *. subst t. f_equal.
        apply spec_redact_field_no_sep. now apply (occurs_app_r sep [c] s).
      * cbn [app] in Hs. inversion Hs; subst.
        destruct (IH (p ++ t) p t) as [out Hout];
          [cbn [length] in Hn; lia | reflexivity | assumption |].
        exists (c' :: out). cbn [app]. now f_equal.
Qed.

End Tail.

Lemma redact_tail (red sep t : str) (fields : list str) :
  occurs sep t = false ->
  forall p, exists out, spec_redact not_newline fields red (p ++ t) sep = out ++ t.
Proof.
  intros Ht. induction fields as [|f fields IH]; intros p; cbn [spec_redact].
  - now exists p.
  - destruct (spec_redact_field_tail f red sep (n := S (length (p ++ t)))
                (s := p ++ t) p t) as [out Hout]; [lia | reflexivity | assumption |].
    rewrite Hout. apply IH.
Qed.

(** ** One pass, cell by cell (separator of one character) *)

Lemma free_app (sp : ascii) (a b : str) :
  free sp (a ++ b) = free sp a && free sp b.
Proof. unfold free. apply forallb_app. Qed.

Lemma free_cons (sp c : ascii) (s : str) :
  free sp (c :: s) = true ->
  Ascii.eqb c sp = false /\ Ascii.eqb c newline = false /\ free sp s = true.
Proof.
  unfold free, delim. cbn [forallb].
  rewrite andb_true_iff, negb_true_iff, orb_false_iff. tauto.
Qed.

Lemma delim_cases (sp d : ascii) :
  delim sp d = true -> d = sp \/ d = newline.
Proof.
  unfold delim. rewrite orb_true_iff, !Ascii.eqb_eq. tauto.
Qed.

Lemma strip_prefix_nil (s : str) : strip_prefix [] s = Some s.
Proof. now destruct s. Qed.

Lemma strip_prefix_run (sp d : ascii) (y : str) :
  delim sp d = true ->
  forall T w,
    free sp T = true ->
    strip_prefix T (w ++ d :: y) =
    match strip_prefix T w with
    | Some v => Some (v ++ d :: y)
    | None => None
    end.
Proof.
  intros Hd. induction T as [|x T IH]; intros w HT.
  - now rewrite !strip_prefix_nil.
  - apply free_cons in HT. destruct HT as [Hx1 [Hx2 HT]].
    destruct w as [|c w]; cbn [app strip_prefix].
    + destruct (Ascii.eqb x d) eqn:E; [|reflexivity].
      apply Ascii.eqb_eq in E. subst d.
      unfold delim in Hd. rewrite Hx1, Hx2 in Hd. discriminate.
    + destruct (Ascii.eqb x c); [now apply IH | reflexivity].
Qed.

Lemma after_separator_run (sp : ascii) (y v : str) :
  free sp v = true ->
  after_separator not_newline [sp] (v ++ sp :: y) = Some y.
Proof.
  induction v as [|c v IH]; intros Hv; cbn [app after_separator strip_prefix].
  - now rewrite Ascii.eqb_refl.
  - apply free_cons in Hv. destruct Hv as [H1 [H2 Hv]].
    rewrite Ascii.eqb_sym, H1. unfold not_newline at 1. rewrite H2.
    now apply IH.
Qed.

Lemma after_separator_newline (sp : ascii) (y v : str) :
  Ascii.eqb sp newline = false -> free sp v = true ->
  after_separator not_newline [sp] (v ++ newline :: y) = None.
Proof.
  intros Hsp. induction v as [|c v IH]; intros Hv;
    cbn [app after_separator strip_prefix].
  - rewrite Hsp. unfold not_newline. now rewrite Ascii.eqb_refl.
  - apply free_cons in Hv. destruct Hv as [H1 [H2 Hv]].
    rewrite Ascii.eqb_sym, H1. unfold not_newline at 1. rewrite H2.
    now apply IH.
Qed.

Lemma free_no_sep (sp : ascii) (w : str) :
  free sp w = true -> occurs [sp] w = false.
Proof.
  induction w as [|c w IH]; intros Hw; [reflexivity|].
  apply free_cons in Hw. destruct Hw as [H1 [_ Hw]].
  cbn [occurs strip_prefix]. rewrite Ascii.eqb_sym, H1. now apply IH.
Qed.

Section OneField.

Variables f red : str.
Variable sp : ascii.
Hypothesis Hfree : free sp (f ++ "=" ++ red) = true.
Hypothesis Hsp : Ascii.eqb sp newline = false.

Lemma token_free : free sp (f ++ "=") = true.
Proof.
  rewrite !free_app in Hfree. rewrite free_app.
  apply andb_true_iff in Hfree. destruct Hfree as [H1 H2].
  apply andb_true_iff in H2. destruct H2 as [H2 _]. now rewrite H1, H2.
Qed.

Lemma span_at_cell (w y : str) :
  free sp w = true ->
  span_at not_newline f [sp] (w ++ sp :: y) =
  match strip_prefix (f ++ "=") w with
  | Some _ => Some y
  | None => None
  end.
Proof.
  intros Hw. unfold span_at.
  rewrite (@strip_prefix_run sp sp y) by
    (try apply token_free; unfold delim; now rewrite Ascii.eqb_refl).
  destruct (strip_prefix (f ++ "=") w) as [v|] eqn:E; [|reflexivity].
  apply after_separator_run. apply strip_prefix_Some in E. subst w.
  rewrite free_app in Hw. apply andb_true_iff in Hw. tauto.
Qed.

Lemma span_at_line (w y : str) :
  free sp w = true ->
  span_at not_newline f [sp] (w ++ newline :: y) = None.
Proof.
  intros Hw. unfold span_at.
  rewrite (@strip_prefix_run sp newline y) by
    (try apply token_free; unfold delim; rewrite Ascii.eqb_refl;
     now rewrite orb_true_r).
  destruct (strip_prefix (f ++ "=") w) as [v|] eqn:E; [|reflexivity].
  apply after_separator_newline; [assumption|].
  apply strip_prefix_Some in E. subst w.
  rewrite free_app in Hw. apply andb_true_iff in Hw. tauto.
Qed.

Lemma token_not_nil : strip_prefix (f ++ "=") [] = None.
Proof. now destruct f. Qed.

(** A separator ends the text [w]: the scanner rewrites [w] as a cell and
    starts afresh after the separator. *)
Lemma redact_cell (y w : str) :
  free sp w = true ->
  spec_redact_field not_newline f red [sp] (w ++ sp :: y) =
  cell (f ++ "=") (f ++ "=" ++ red) w
    ++ sp :: spec_redact_field not_newline f red [sp] y.
Proof.
  induction w as [|c w IH]; intros Hw; rewrite spec_redact_field_eq;
    rewrite span_at_cell by assumption; cbn [cell].
  - now rewrite token_not_nil.
  - destruct (strip_prefix (f ++ "=") (c :: w)).
    + now rewrite <- !app_assoc.
    + cbn [app]. f_equal. apply IH. apply free_cons in Hw. tauto.
Qed.

(** A newline ends the text [w]: nothing in [w] is replaced. *)
Lemma redact_line (y w : str) :
  free sp w = true ->
  spec_redact_field not_newline f red [sp] (w ++ newline :: y) =
  w ++ newline :: spec_redact_field not_newline f red [sp] y.
Proof.
  induction w as [|c w IH]; intros Hw; rewrite spec_redact_field_eq;
    rewrite span_at_line by assumption; cbn [app]; [reflexivity|].
  f_equal. apply IH. apply free_cons in Hw. tauto.
Qed.

Lemma cell_free (w : str) :
  free sp w = true -> free sp (cell (f ++ "=") (f ++ "=" ++ red) w) = true.
Proof.
  induction w as [|c w IH]; intros Hw; cbn [cell].
  - now rewrite token_not_nil.
  - destruct (strip_prefix (f ++ "=") (c :: w)); [assumption|].
    pose proof (free_cons _ _ _ Hw) as [H1 [H2 Hw']].
    unfold free in *. cbn [forallb] in *.
    apply andb_true_iff in Hw. destruct Hw as [Hc _]. rewrite Hc.
    now apply IH.
Qed.

End OneField.

(** Every text starts with a run free of separators and newlines, which
    ends the text or is followed by one of them. *)
Lemma head_run (sp : ascii) (s : str) :
  exists w rest,
    s = w ++ rest /\ free sp w = true /\
    (rest = [] \/ exists d y, rest = d :: y /\ delim sp d = true).
Proof.
  induction s as [|c s IH].
  - exists [], []. auto.
  - destruct (delim sp c) eqn:E.
    + exists [], (c :: s). repeat split. right. now exists c, s.
    + destruct IH as [w [rest [Hs [Hw Hrest]]]].
      exists (c :: w), rest. repeat split; [cbn [app]; now f_equal | | assumption].
      unfold free in *. cbn [forallb]. now rewrite E, Hw.
Qed.

(** ** Two passes commute *)

Lemma strip_prefix_mismatch (t0 c : ascii) (T s : str) :
  Ascii.eqb t0 c = false -> strip_prefix (t0 :: T) (c :: s) = None.
Proof. intros H. cbn [strip_prefix]. now rewrite H. Qed.

Lemma cell_prefix (T rep w x : str) :
  strip_prefix T w = Some x -> cell T rep w = rep.
Proof. intros H. destruct w; cbn [cell]; now rewrite H. Qed.

Lemma cell_cons (T rep w : str) (c : ascii) :
  strip_prefix T (c :: w) = None -> cell T rep (c :: w) = c :: cell T rep w.
Proof. intros H. cbn [cell]. now rewrite H. Qed.

Lemma cell_skip (t0 : ascii) (T rep x u : str) :
  elem t0 u = false ->
  cell (t0 :: T) rep (u ++ x) = u ++ cell (t0 :: T) rep x.
Proof.
  induction u as [|c u IH]; intros Hu; [reflexivity|].
  unfold elem in Hu. cbn [existsb] in Hu. apply orb_false_iff in Hu.
  destruct Hu as [Hc Hu]. cbn [app cell].
  rewrite strip_prefix_mismatch by assumption. f_equal. now apply IH.
Qed.

Lemma cell_id (t0 : ascii) (T rep u : str) :
  elem t0 u = false -> cell (t0 :: T) rep u = u.
Proof.
  intros Hu. rewrite <- (app_nil_r u) at 1. rewrite cell_skip by assumption.
  cbn [cell strip_prefix]. apply app_nil_r.
Qed.

(** A pass does not complete a token that its own first character is absent
    from. *)
Lemma cell_keeps_mismatch (b0 : ascii) (B rep : str) :
  forall u P,
    elem b0 P = false ->
    strip_prefix P u = None ->
    strip_prefix P (cell (b0 :: B) (b0 :: rep) u) = None.
Proof.
  induction u as [|c u IH]; intros P HP Hu; [assumption|].
  destruct P as [|p0 P]; [now rewrite strip_prefix_nil in Hu|].
  unfold elem in HP. cbn [existsb] in HP. apply orb_false_iff in HP.
  destruct HP as [Hp0 HP]. cbn [cell].
  destruct (strip_prefix (b0 :: B) (c :: u)).
  - apply strip_prefix_mismatch. now rewrite Ascii.eqb_sym.
  - cbn [strip_prefix] in Hu |- *.
    destruct (Ascii.eqb p0 c); [now apply IH | reflexivity].
Qed.

Lemma cell_commute (a0 b0 : ascii) (A B ra rb : str) :
  elem a0 (b0 :: B ++ rb) = false ->
  elem b0 (a0 :: A ++ ra) = false ->
  forall w,
    cell (a0 :: A) (a0 :: A ++ ra) (cell (b0 :: B) (b0 :: B ++ rb) w) =
    cell (b0 :: B) (b0 :: B ++ rb) (cell (a0 :: A) (a0 :: A ++ ra) w).
Proof.
  intros Hab Hba.
  assert (HaB : elem a0 (b0 :: B) = false).
  { change (b0 :: B ++ rb) with ((b0 :: B) ++ rb) in Hab.
    rewrite elem_app in Hab. now apply orb_false_iff in Hab. }
  assert (HbA : elem b0 (a0 :: A) = false).
  { change (a0 :: A ++ ra) with ((a0 :: A) ++ ra) in Hba.
    rewrite elem_app in Hba. now apply orb_false_iff in Hba. }
  induction w as [|c w IH]; [reflexivity|].
  destruct (strip_prefix (b0 :: B) (c :: w)) as [x|] eqn:EB.
  - (* the cell starts with [b=] *)
    rewrite (@cell_prefix (b0 :: B) (b0 :: B ++ rb) (c :: w) x EB).
    rewrite (strip_prefix_Some _ _ EB).
    rewrite (@cell_skip a0 A (a0 :: A ++ ra) x (b0 :: B) HaB).
    rewrite (@cell_prefix (b0 :: B) (b0 :: B ++ rb) _ _
               (strip_prefix_app (b0 :: B) _)).
    now apply cell_id.
  - destruct (strip_prefix (a0 :: A) (c :: w)) as [x|] eqn:EA.
    + (* the cell starts with [a=] *)
      rewrite (@cell_prefix (a0 :: A) (a0 :: A ++ ra) (c :: w) x EA).
      rewrite (strip_prefix_Some _ _ EA).
      rewrite (@cell_skip b0 B (b0 :: B ++ rb) x (a0 :: A) HbA).
      rewrite (@cell_prefix (a0 :: A) (a0 :: A ++ ra) _ _
                 (strip_prefix_app (a0 :: A) _)).
      symmetry. now apply cell_id.
    + (* neither: the first character is copied by both passes *)
      pose proof (@cell_keeps_mismatch b0 B (B ++ rb) (c :: w) (a0 :: A) HbA EA)
        as H1.
      pose proof (@cell_keeps_mismatch a0 A (A ++ ra) (c :: w) (b0 :: B) HaB EB)
        as H2.
      rewrite (@cell_cons (b0 :: B) (b0 :: B ++ rb) w c EB) in H1 |- *.
      rewrite (@cell_cons (a0 :: A) (a0 :: A ++ ra) w c EA) in H2 |- *.
      rewrite (@cell_cons (a0 :: A) (a0 :: A ++ ra) _ c H1).
      rewrite (@cell_cons (b0 :: B) (b0 :: B ++ rb) _ c H2). now f_equal.
Qed.

Lemma independent_facts (a b red : str) (sp : ascii) :
  independent a b red sp = true ->
  exists a0 A b0 B,
    a ++ "=" = a0 :: A /\ b ++ "=" = b0 :: B /\
    elem a0 (b0 :: B ++ red) = false /\ elem b0 (a0 :: A ++ red) = false /\
    free sp (a ++ "=" ++ red) = true /\ free sp (b ++ "=" ++ red) = true /\
    Ascii.eqb sp newline = false.
Proof.
  unfold independent. intros H.
  assert (Ea : a ++ "=" ++ red = (a ++ "=") ++ red) by now rewrite <- app_assoc.
  assert (Eb : b ++ "=" ++ red = (b ++ "=") ++ red) by now rewrite <- app_assoc.
  rewrite Ea, Eb in H |- *.
  destruct (a ++ "=") as [|a0 A]; [discriminate|].
  destruct (b ++ "=") as [|b0 B]; [discriminate|].
  rewrite !andb_true_iff, !negb_true_iff in H.
  exists a0, A, b0, B. cbn [app] in H. tauto.
Qed.

Lemma spec_redact_field_commute_bounded (a b red : str) (sp : ascii) :
  independent a b red sp = true ->
  forall n s,
    length s < n ->
    spec_redact_field not_newline a red [sp]
      (spec_redact_field not_newline b red [sp] s) =
    spec_redact_field not_newline b red [sp]
      (spec_redact_field not_newline a red [sp] s).
Proof.
  intros Hind.
  destruct (independent_facts _ _ _ _ Hind)
    as [a0 [A [b0 [B [Ha [Hb [Hab [Hba [Hfa [Hfb Hsp]]]]]]]]]].
  induction n as [|n IH]; intros s Hn; [lia|].
  destruct (head_run sp s) as [w [rest [Hs [Hw Hrest]]]]. subst s.
  destruct Hrest as [-> | [d [y [-> Hd]]]].
  - rewrite app_nil_r. pose proof (free_no_sep _ _ Hw) as Hno.
    rewrite (@spec_redact_field_no_sep b red [sp] w Hno).
    rewrite (@spec_redact_field_no_sep a red [sp] w Hno).
    now rewrite (@spec_redact_field_no_sep b red [sp] w Hno).
  - assert (Hy : length y < n)
      by (rewrite length_app in Hn; cbn [length] in Hn; lia).
    destruct (delim_cases _ _ Hd) as [-> | ->].
    + rewrite (@redact_cell b red sp Hfb y w Hw).
      rewrite (@redact_cell a red sp Hfa y w Hw).
      rewrite (@redact_cell a red sp Hfa) by now apply cell_free.
      rewrite (@redact_cell b red sp Hfb) by now apply cell_free.
      rewrite (IH y Hy). f_equal.
      replace (a ++ "=" ++ red) with ((a ++ "=") ++ red)
        by now rewrite <- app_assoc.
      replace (b ++ "=" ++ red) with ((b ++ "=") ++ red)
        by now rewrite <- app_assoc.
      rewrite Ha, Hb. cbn [app]. now apply cell_commute.
    + rewrite !(@redact_line b red sp Hfb Hsp), !(@redact_line a red sp Hfa Hsp)
        by assumption.
      rewrite !(@redact_line b red sp Hfb Hsp) by assumption.
      now rewrite (IH y Hy).
Qed.

(** The passes for two independent field names commute. *)
Lemma spec_redact_field_commute (a b red : str) (sp : ascii) (s : str) :
  independent a b red sp = true ->
  spec_redact_field not_newline a red [sp]
    (spec_redact_field not_newline b red [sp] s) =
  spec_redact_field not_newline b red [sp]
    (spec_redact_field not_newline a red [sp] s).
Proof.
  intros H. apply (@spec_redact_field_commute_bounded a b red sp H (S (length s))).
  lia.
Qed.

(** Two plain, independent field names can be listed in either order. *)
Lemma filter_datum_commute (a b red : str) (sp : ascii) (message : str) :
  plain a = true -> plain b = true -> plain [sp] = true ->
  no_backslash red = true ->
  independent a b red sp = true ->
  filter_datum [a; b] red message [sp] = filter_datum [b; a] red message [sp].
Proof.
  intros Ha Hb Hs Hr Hind.
  rewrite !filter_datum_plain
    by (try assumption; cbn [forallb]; now rewrite Ha, Hb).
  cbn [spec_redact]. f_equal. symmetry. now apply spec_redact_field_commute.
Qed.

(** ** What is left alone *)

Lemma span_at_token (allowed : ascii -> bool) (f sep s r : str) :
  span_at allowed f sep s = Some r -> occurs (f ++ "=") s = true.
Proof.
  unfold span_at. intros H.
  destruct (strip_prefix (f ++ "=") s) as [v|] eqn:E; [|discriminate].
  now apply occurs_prefix with v.
Qed.

(** A field name that does not appear is a no-op for that field. *)
Lemma spec_redact_field_absent (f red sep s : str) :
  occurs (f ++ "=") s = false ->
  spec_redact_field not_newline f red sep s = s.
Proof.
  induction s as [|c s IH]; intros H; rewrite spec_redact_field_eq.
  - destruct (span_at not_newline f sep []) eqn:E; [|reflexivity].
    apply span_at_token in E. congruence.
  - destruct (span_at not_newline f sep (c :: s)) eqn:E.
    + apply span_at_token in E. congruence.
    + f_equal. apply IH. now apply (occurs_app_r (f ++ "=") [c] s).
Qed.

Lemma filter_datum_absent_fields (fields : list str) (red message sep : str) :
  forallb plain fields = true -> no_backslash red = true -> plain sep = true ->
  (forall f, In f fields -> occurs (f ++ "=") message = false) ->
  filter_datum fields red message sep = Ok message.
Proof.
  intros Hf Hr Hs Habs. rewrite filter_datum_plain by assumption. f_equal.
  clear Hf. induction fields as [|f fields IH]; [reflexivity|].
  cbn [spec_redact]. rewrite spec_redact_field_absent
    by (apply Habs; now left).
  apply IH. intros g Hg. apply Habs. now right.
Qed.

(** A message in which the separator does not occur is returned as it
    is. *)
Lemma filter_datum_without_separator (fields : list str)
    (red message sep : str) :
  forallb plain fields = true -> no_backslash red = true -> plain sep = true ->
  occurs sep message = false ->
  filter_datum fields red message sep = Ok message.
Proof.
  intros Hf Hr Hs Hm. rewrite filter_datum_plain by assumption. f_equal.
  clear Hf. induction fields as [|f fields IH]; [reflexivity|].
  cbn [spec_redact]. now rewrite spec_redact_field_no_sep.
Qed.

Lemma cell_absent (token rep w : str) :
  occurs token w = false -> cell token rep w = w.
Proof.
  induction w as [|c w IH]; intros H; cbn [cell occurs] in *.
  - now destruct (strip_prefix token []).
  - destruct (strip_prefix token (c :: w)); [discriminate|].
    f_equal. now apply IH.
Qed.

(** A leading segment in which [f=] does not occur is copied, and the text
    after its separator is processed as if it stood alone (separator of
    one character). *)
Lemma filter_datum_segment (f red : str) (sp : ascii) (w y : str) :
  plain f = true -> no_backslash red = true -> plain [sp] = true ->
  free sp (f ++ "=" ++ red) = true ->
  free sp w = true -> occurs (f ++ "=") w = false ->
  filter_datum [f] red (w ++ sp :: y) [sp] =
  (out <- filter_datum [f] red y [sp] ;; Ok (w ++ sp :: out)).
Proof.
  intros Hf Hr Hs Hfree Hw Habs.
  rewrite !filter_datum_plain by (try assumption; cbn [forallb]; now rewrite Hf).
  cbn [spec_redact bind].
  rewrite (@redact_cell f red sp Hfree y w Hw).
  now rewrite cell_absent.
Qed.

(** ** Whole messages, cell by cell *)

Lemma join_cons (sep w : str) (ws : list str) (z : str) :
  join sep (w :: ws ++ [z]) = w ++ sep ++ join sep (ws ++ [z]).
Proof.
  cbn [join]. destruct (ws ++ [z]) eqn:E; [now destruct ws | reflexivity].
Qed.

Lemma fields_free_cons (sp : ascii) (red f : str) (fields : list str) :
  forallb (fun f => free sp (f ++ "=" ++ red)) (f :: fields) = true ->
  free sp (f ++ "=" ++ red) = true /\
  forallb (fun f => free sp (f ++ "=" ++ red)) fields = true.
Proof. cbn [forallb]. now rewrite andb_true_iff. Qed.

Lemma cells_free (sp : ascii) (red : str) (fields : list str) :
  forallb (fun f => free sp (f ++ "=" ++ red)) fields = true ->
  forall w, free sp w = true -> free sp (cells fields red w) = true.
Proof.
  induction fields as [|f fields IH]; intros Hf w Hw; [assumption|].
  apply fields_free_cons in Hf. destruct Hf as [Hf Hfs].
  cbn [cells]. apply IH; [assumption|]. now apply cell_free.
Qed.

(** All the passes on a text that a separator ends. *)
Lemma spec_redact_cells (sp : ascii) (red : str) (fields : list str) :
  forallb (fun f => free sp (f ++ "=" ++ red)) fields = true ->
  forall w y,
    free sp w = true ->
    spec_redact not_newline fields red (w ++ sp :: y) [sp] =
    cells fields red w ++ sp :: spec_redact not_newline fields red y [sp].
Proof.
  induction fields as [|f fields IH]; intros Hf w y Hw; [reflexivity|].
  apply fields_free_cons in Hf. destruct Hf as [Hf Hfs].
  cbn [spec_redact cells]. rewrite (@redact_cell f red sp Hf y w Hw).
  apply IH; [assumption|]. now apply cell_free.
Qed.

Lemma spec_redact_no_sep (fields : list str) (red sep s : str) :
  occurs sep s = false -> spec_redact not_newline fields red s sep = s.
Proof.
  intros H. induction fields as [|f fields IH]; [reflexivity|].
  cbn [spec_redact]. now rewrite spec_redact_field_no_sep.
Qed.

Lemma spec_redact_join (sp : ascii) (red : str) (fields : list str) (z : str) :
  forallb (fun f => free sp (f ++ "=" ++ red)) fields = true ->
  occurs [sp] z = false ->
  forall ws,
    forallb (free sp) ws = true ->
    spec_redact not_newline fields red (join [sp] (ws ++ [z])) [sp] =
    join [sp] (map (cells fields red) ws ++ [z]).
Proof.
  intros Hf Hz. induction ws as [|w ws IH]; intros Hws.
  - cbn [app map join]. now apply spec_redact_no_sep.
  - cbn [forallb] in Hws. apply andb_true_iff in Hws. destruct Hws as [Hw Hws].
    cbn [map]. rewrite <- !app_comm_cons, !join_cons. cbn [app].
    rewrite spec_redact_cells by assumption. now rewrite IH.
Qed.


(** * The claims *)

(** C1, amended.  For field names and a separator in which no character has
    a meaning in a pattern, and a redaction token without a backslash,
    [filter_datum] returns the message as the specification's scanner
    rewrites it, field by field in order: every span [f=value sep], where
    the value is the shortest run of characters other than a newline up to
    the next separator, gives way to [f=token sep]; every other character
    is copied. *)
Theorem filter_datum_is_scanner (fields : list str)
    (redaction message separator : str) :
  forallb plain fields = true ->
  no_backslash redaction = true ->
  plain separator = true ->
  filter_datum fields redaction message separator =
  Ok (spec_redact not_newline fields redaction message separator).
Proof. intros Hf Hr Hs. now apply filter_datum_plain. Qed.

Lemma filter_datum_is_scanner_witness :
  filter_datum ["name"; "password"] "XXX" "name=Bob password=secret id=7" " " =
  Ok (spec_redact not_newline ["name"; "password"] "XXX"
        "name=Bob password=secret id=7" " ").
Proof.
  apply (@filter_datum_is_scanner ["name"; "password"] "XXX"
           "name=Bob password=secret id=7" " "); reflexivity.
Defined.

(** C1 as stated (any field names, token and separator; a value is any run
    of characters up to the next separator) fails on three inputs: a value
    that holds a newline is left as it is; the separator [.] is read as
    "any character", so one character of the value is replaced and the rest
    is left; the token made of a backslash and [n] is read as an escape, and
    a newline is written in its place. *)
Lemma filter_datum_is_scanner_unrestricted_fails :
  (filter_datum ["password"] "XXX" ("password=two" ++ newline :: "lines ") " "
     = Ok ("password=two" ++ newline :: "lines ") /\
   spec_redact any_char ["password"] "XXX"
               ("password=two" ++ newline :: "lines ") " "
     = "password=XXX ") /\
  (filter_datum ["password"] "XXX" "name=Bob.password=secret." "."
     = Ok "name=Bob.password=XXX.ecret." /\
   spec_redact any_char ["password"] "XXX" "name=Bob.password=secret." "."
     = "name=Bob.password=XXX.") /\
  (filter_datum ["ssn"] "\n" "ssn=123-45-6789 " " "
     = Ok ("ssn=" ++ newline :: " ") /\
   spec_redact any_char ["ssn"] "\n" "ssn=123-45-6789 " " " = "ssn=\n ").
Proof. repeat split; vm_compute; reflexivity. Qed.

(** C2, amended.  For a field name and a separator in which no character
    has a meaning in a pattern, the matches that the pass for the field
    replaces split the message from left to right without overlap; each is
    the field name, [=], a value and the separator, the value holds no
    newline and the separator does not start inside it (the span is the
    shortest one); and the pass returns the message with each match
    replaced by [f=token sep]. *)
Theorem matches_are_delimited (f redaction separator message : str) :
  plain f = true ->
  no_backslash redaction = true ->
  plain separator = true ->
  exists ms tail,
    field_matches f separator message = Ok (ms, tail) /\
    message = flat_map (fun m => skipped m ++ matched m) ms ++ tail /\
    Forall (fun m => delimited f separator (matched m)) ms /\
    filter_datum [f] redaction message separator =
      Ok (flat_map (fun m => skipped m ++ field_repl f redaction separator) ms
            ++ tail).
Proof.
  intros Hf Hr Hs.
  destruct (finditer_field f redaction separator message)
    as [ms [tail [Hit [Hjoin [Hcover Hall]]]]].
  exists ms, tail. unfold field_matches.
  rewrite re_compile_field by assumption. cbn [bind]. rewrite Hit.
  repeat split; try assumption.
  cbn [filter_datum]. rewrite re_sub_field by assumption. cbn [bind].
  now rewrite <- Hjoin.
Qed.

Lemma matches_are_delimited_witness :
  exists ms tail,
    field_matches "password" " " "name=Bob password=secret id=7 "
      = Ok (ms, tail) /\
    "name=Bob password=secret id=7 " =
      flat_map (fun m => skipped m ++ matched m) ms ++ tail /\
    Forall (fun m => delimited "password" " " (matched m)) ms /\
    filter_datum ["password"] "XXX" "name=Bob password=secret id=7 " " " =
      Ok (flat_map (fun m => skipped m ++ field_repl "password" "XXX" " ") ms
            ++ tail).
Proof.
  apply (@matches_are_delimited "password" "XXX" " "
           "name=Bob password=secret id=7 "); reflexivity.
Defined.

(** With a separator of one character, the value of a delimited match
    holds no separator character. *)
Lemma delimited_value_has_no_separator (f m : str) (sp : ascii) :
  delimited f [sp] m ->
  exists v, m = f ++ "=" ++ v ++ [sp] /\ ~ In sp v /\ ~ In newline v.
Proof.
  intros [v [Hm [Hn Hmin]]]. exists v. repeat split; try assumption.
  intros Hin. apply in_split in Hin. destruct Hin as [u [w Hv]].
  specialize (Hmin u (w ++ [sp])). subst v.
  rewrite <- app_assoc in Hmin. cbn [app] in Hmin.
  specialize (Hmin eq_refl). now destruct w.
Qed.

(** C2 as stated (every field name, any separator) fails: the [.] of the
    field name [user.name] matches any character, so the pass replaces a
    span that does not start with the field name; with the separator [.]
    the span replaced ends after one character of the value. *)
Lemma matches_not_delimited_unrestricted :
  (field_matches "user.name" " " "user_name=bob id=2 "
     = Ok ([Found "" "user_name=bob "], "id=2 ") /\
   ~ delimited "user.name" " " "user_name=bob ") /\
  (field_matches "password" "." "name=Bob.password=secret."
     = Ok ([Found "name=Bob." "password=s"], "ecret.") /\
   ~ delimited "password" "." "password=s").
Proof.
  repeat split; try (vm_compute; reflexivity).
  - intros [v [H _]]. discriminate H.
  - intros [v [H _]]. cbn [app] in H. destruct v as [|c [|d v]]; discriminate H.
Qed.

(** C3, amended.  [filter_datum(["email"], "XXX", "id=1 email=a@b.com", " ")]
    returns the message unchanged; and for field names and a separator in
    which no character has a meaning in a pattern and a token without a
    backslash, a value of a listed field that the separator does not
    follow (the separator occurs nowhere in the rest of the message) is
    still in its place, at the end of what [filter_datum] returns; so is
    the whole of [f=value] when the separator does not occur in it. *)
Theorem unterminated_value_kept :
  filter_datum ["email"] "XXX" "id=1 email=a@b.com" " " =
    Ok "id=1 email=a@b.com" /\
  forall (fields : list str) (redaction separator before f value : str),
    forallb plain fields = true ->
    no_backslash redaction = true ->
    plain separator = true ->
    In f fields ->
    occurs separator value = false ->
    (exists out,
       filter_datum fields redaction (before ++ f ++ "=" ++ value) separator =
       Ok (out ++ value)) /\
    (occurs separator (f ++ "=" ++ value) = false ->
     exists out,
       filter_datum fields redaction (before ++ f ++ "=" ++ value) separator =
       Ok (out ++ f ++ "=" ++ value)).
Proof.
  split; [vm_compute; reflexivity|].
  intros fields redaction separator before f value Hf Hr Hs _ Hv.
  rewrite filter_datum_plain by assumption. split.
  - destruct (@redact_tail redaction separator value fields Hv
                (before ++ f ++ "=")) as [out Hout].
    exists out. rewrite <- Hout. now rewrite <- !app_assoc.
  - intros Hkv.
    destruct (@redact_tail redaction separator (f ++ "=" ++ value) fields Hkv
                before) as [out Hout].
    exists out. now rewrite <- Hout.
Qed.

Lemma unterminated_value_kept_witness :
  exists out,
    filter_datum PII_FIELDS "XXX"
      ("id=1 name=Bob " ++ "email" ++ "=" ++ "a@b.com") " " =
    Ok (out ++ "email" ++ "=" ++ "a@b.com").
Proof.
  apply (proj2 unterminated_value_kept PII_FIELDS "XXX" " " "id=1 name=Bob "
           "email" "a@b.com"); try reflexivity.
  cbn [In PII_FIELDS]. tauto.
Defined.

(** C3 as stated (any separator) fails: the separator [.] is read as "any
    character", so in ["email=a@b"], where no [.] follows the value [a@b],
    the first character of the value is replaced. *)
Lemma unterminated_value_mangled :
  occurs "." "a@b" = false /\
  filter_datum ["email"] "XXX" ("" ++ "email" ++ "=" ++ "a@b") "." =
    Ok "email=XXX.@b" /\
  ~ exists out, "email=XXX.@b" = out ++ "a@b".
Proof.
  repeat split; try (vm_compute; reflexivity).
  intros [out H]. apply (f_equal (@rev ascii)) in H.
  rewrite rev_app_distr in H. vm_compute in H. discriminate H.
Qed.

(** C4.  For every message, the field lists [["name", "password"]] and
    [["password", "name"]] give the same result (token ["XXX"], separator
    [" "]). *)
Theorem name_password_order_independent (message : str) :
  filter_datum ["name"; "password"] "XXX" message " " =
  filter_datum ["password"; "name"] "XXX" message " ".
Proof.
  apply (@filter_datum_commute "name" "password" "XXX" " " message);
    vm_compute; reflexivity.
Qed.

(** C5.  With no field the message is returned as it is, for every token,
    message and separator. *)
Theorem filter_datum_no_fields (redaction message separator : str) :
  filter_datum [] redaction message separator = Ok message.
Proof. reflexivity. Qed.

(** C6.  [filter_datum(["password"], "XXX", "name=Bob password=secret ", " ")]
    returns ["name=Bob password=XXX "]. *)
Theorem single_field_redaction :
  filter_datum ["password"] "XXX" "name=Bob password=secret " " " =
  Ok "name=Bob password=XXX ".
Proof. vm_compute. reflexivity. Qed.




(** C8, amended.  [format] renders the record with the inherited formatter
    and applies [filter_datum] with the formatter's fields, the token
    ["XXX"] and the separator [" "] to the result; what the rendering raises
    is raised.  For a record rendered as ["name=Bob password=hunter2 "],
    fields [["name", "password"]] (or [PII_FIELDS]) give
    ["name=XXX password=XXX "]: the name is redacted too.  The result
    ["name=Bob password=XXX "] is that of the fields [["password"]]. *)
Theorem format_renders_then_redacts (LogRecord : Type)
    (super_format : LogRecord -> outcome str)
    (self : RedactingFormatter) (record : LogRecord) :
  (forall message,
     super_format record = Ok message ->
     format super_format self record =
     filter_datum (fields self) "XXX" message " ") /\
  (forall e,
     super_format record = Raises e ->
     format super_format self record = Raises e) /\
  (super_format record = Ok "name=Bob password=hunter2 " ->
   (fields self = ["name"; "password"] \/ fields self = PII_FIELDS ->
    format super_format self record = Ok "name=XXX password=XXX ") /\
   (fields self = ["password"] ->
    format super_format self record = Ok "name=Bob password=XXX ")).
Proof.
  unfold format. repeat split.
  - intros message H. now rewrite H.
  - intros e H. now rewrite H.
  - intros [Hf|Hf]; rewrite H, Hf; vm_compute; reflexivity.
  - intros Hf. rewrite H, Hf. vm_compute. reflexivity.
Qed.

Lemma format_renders_then_redacts_witness :
  format (fun _ : unit => Ok "name=Bob password=hunter2 ") logger_formatter tt =
  Ok "name=XXX password=XXX ".
Proof.
  apply (proj2 (proj2 (@format_renders_then_redacts unit
           (fun _ => Ok "name=Bob password=hunter2 ") logger_formatter tt)));
    [reflexivity | right; reflexivity].
Defined.

(** C8 as stated fails in its example: with both [name] and [password]
    among the fields, the record rendered as ["name=Bob password=hunter2 "]
    does not come out as ["name=Bob password=XXX "]. *)
Lemma format_example_redacts_name :
  format (fun _ : unit => Ok "name=Bob password=hunter2 ")
         {| fields := ["name"; "password"] |} tt
    = Ok "name=XXX password=XXX " /\
  format (fun _ : unit => Ok "name=Bob password=hunter2 ")
         {| fields := ["name"; "password"] |} tt
    <> Ok "name=Bob password=XXX ".
Proof. split; [vm_compute; reflexivity | vm_compute; discriminate]. Qed.

(** C9, amended.  [filter_datum] is a function of its four arguments (equal
    arguments, equal results), and it returns a string, raising nothing,
    when no character of the field names and of the non-empty separator
    has a meaning in a pattern and the token holds no backslash. *)
Theorem filter_datum_pure_total_on_plain :
  (forall (fields fields' : list str) (redaction redaction' message message'
           separator separator' : str),
     fields = fields' -> redaction = redaction' -> message = message' ->
     separator = separator' ->
     filter_datum fields redaction message separator =
     filter_datum fields' redaction' message' separator') /\
  (forall (fields : list str) (redaction message separator : str),
     forallb plain fields = true ->
     no_backslash redaction = true ->
     plain separator = true ->
     separator <> [] ->
     exists out, filter_datum fields redaction message separator = Ok out).
Proof.
  split.
  - intros; subst; reflexivity.
  - intros fields redaction message separator Hf Hr Hs _.
    eexists. now apply filter_datum_plain.
Qed.

Lemma filter_datum_pure_total_on_plain_witness :
  exists out,
    filter_datum PII_FIELDS "XXX" "name=Bob;email=b@x.org;id=7;" ";" = Ok out.
Proof.
  apply (proj2 filter_datum_pure_total_on_plain PII_FIELDS "XXX"
           "name=Bob;email=b@x.org;id=7;" ";");
    try reflexivity.
  discriminate.
Defined.

(** C9 as stated (never raises for strings and a non-empty separator)
    fails: the field name [*], the separator [*] and the token made of a
    backslash and [1] each make [re.sub] raise [re.error]. *)
Lemma filter_datum_raises :
  filter_datum ["*"] "XXX" "name=Bob " " "
    = Raises (re_error NothingToRepeat) /\
  filter_datum ["name"] "XXX" "name=Bob*" "*"
    = Raises (re_error MultipleRepeat) /\
  filter_datum ["name"] "\1" "name=Bob " " "
    = Raises (re_error InvalidGroupReference).
Proof. repeat split; vm_compute; reflexivity. Qed.

(** C10.  The pattern is not anchored at the start of a key:
    [filter_datum(["name"], "XXX", "username=alice id=2 ", " ")] returns
    ["username=XXX id=2 "]; the span replaced starts inside the key
    [username], which is not listed. *)
Theorem unanchored_field_name :
  filter_datum ["name"] "XXX" "username=alice id=2 " " " =
    Ok "username=XXX id=2 " /\
  field_matches "name" " " "username=alice id=2 " =
    Ok ([Found "user" "name=alice "], "id=2 ") /\
  ~ In "username" ["name"].
Proof.
  repeat split; try (vm_compute; reflexivity).
  intros [H|[]]. discriminate H.
Qed.

(** * Beyond the claims: [filter_datum] *)

(** X1.  A field list in two parts: [filter_datum] on the whole list is
    [filter_datum] on the first part, then on the second part with the
    result; what the first part raises is raised. *)
Theorem filter_datum_app (fields1 fields2 : list str)
    (redaction message separator : str) :
  filter_datum (fields1 ++ fields2) redaction message separator =
  (message' <- filter_datum fields1 redaction message separator ;;
   filter_datum fields2 redaction message' separator).
Proof.
  revert message. induction fields1 as [|f fields1 IH]; intros message;
    [reflexivity|].
  cbn [app filter_datum].
  destruct (re.sub (field_pattern f separator)
              (field_repl f redaction separator) message) as [m| |];
    cbn [bind]; [apply IH | reflexivity | reflexivity].
Qed.

(** X2.  A field name that does not appear is a no-op: when no [f=] of a
    listed field occurs in the message, the message is returned as it is
    (field names and separator without pattern characters, token without
    backslash). *)
Theorem absent_fields_are_no_op (fields : list str)
    (redaction message separator : str) :
  forallb plain fields = true ->
  no_backslash redaction = true ->
  plain separator = true ->
  forallb (fun f => negb (occurs (f ++ "=") message)) fields = true ->
  filter_datum fields redaction message separator = Ok message.
Proof.
  intros Hf Hr Hs Habs. apply filter_datum_absent_fields; try assumption.
  intros f Hin. rewrite forallb_forall in Habs.
  specialize (Habs f Hin). now apply negb_true_iff in Habs.
Qed.

Lemma absent_fields_are_no_op_witness :
  filter_datum PII_FIELDS "XXX" "id=7 ip=10.0.0.1 agent=curl " " " =
  Ok "id=7 ip=10.0.0.1 agent=curl ".
Proof.
  apply (@absent_fields_are_no_op PII_FIELDS "XXX"
           "id=7 ip=10.0.0.1 agent=curl " " "); reflexivity.
Defined.

(** X3.  A message in which the separator does not occur is returned as it
    is, whatever fields it names. *)
Theorem message_without_separator_unchanged (fields : list str)
    (redaction message separator : str) :
  forallb plain fields = true ->
  no_backslash redaction = true ->
  plain separator = true ->
  occurs separator message = false ->
  filter_datum fields redaction message separator = Ok message.
Proof.
  intros Hf Hr Hs Hm. now apply filter_datum_without_separator.
Qed.

Lemma message_without_separator_unchanged_witness :
  filter_datum PII_FIELDS "XXX" "name=Bob;password=hunter2" " " =
  Ok "name=Bob;password=hunter2".
Proof.
  apply (@message_without_separator_unchanged PII_FIELDS "XXX"
           "name=Bob;password=hunter2" " "); reflexivity.
Defined.

Lemma dangling_long (p : str) : 2 <= length p -> dangling p = false.
Proof. destruct p as [|c [|d p]]; cbn [length]; [lia | lia | reflexivity]. Qed.

Lemma parse_plain_before (p : str) :
  forall done cur rest,
    plain p = true -> 2 <= length rest ->
    parse done cur (p ++ rest) = parse done (rev (literals p) ++ cur) rest.
Proof.
  induction p as [|c p IH]; intros done cur rest Hp Hr; [reflexivity|].
  apply plain_cons in Hp. destruct Hp as [Hc Hp].
  destruct (not_special c Hc) as [Hb [Hpar Hbar]].
  assert (Hd : dangling (p ++ rest) = false).
  { apply dangling_long. rewrite length_app. lia. }
  cbn [app parse]. rewrite Hb, Hpar, Hd, Hbar, Hc. cbn [negb].
  rewrite IH by assumption. cbn [literals map rev]. now rewrite <- app_assoc.
Qed.

(** X4.  A separator that begins with [*], [+] or [?] makes every call with
    a field raise: the pattern [f=.*?] followed by a quantifier does not
    compile ([multiple repeat]; [bad escape] when the separator is the
    quantifier and one backslash).  The message is not looked at. *)
Theorem quantifier_separator_raises (f : str) (fields : list str)
    (redaction message : str) (c : ascii) (rest : str) :
  plain f = true ->
  elem c "*+?" = true ->
  filter_datum (f :: fields) redaction message (c :: rest) =
  Raises (re_error (if dangling rest then BadEscape else MultipleRepeat)).
Proof.
  intros Hf Hc.
  assert (Hparse : re.compile (field_pattern f (c :: rest)) =
    Raises (re_error (if dangling rest then BadEscape else MultipleRepeat))).
  { unfold re.compile, field_pattern.
    rewrite parse_plain_before; [| assumption | cbn [app length]; lia].
    change ("=.*?" ++ c :: rest)
      with ("="%char :: "."%char :: "*"%char :: "?"%char :: c :: rest).
    assert (Hd1 : dangling ("."%char :: "*"%char :: "?"%char :: c :: rest) = false)
      by reflexivity.
    assert (Hd2 : dangling ("*"%char :: "?"%char :: c :: rest) = false)
      by reflexivity.
    assert (Hd3 : dangling ("?"%char :: c :: rest) = false) by reflexivity.
    parse_step. rewrite Hd1. parse_step. rewrite Hd2. parse_step.
    unfold elem in Hc. cbn [existsb] in Hc. rewrite orb_false_r in Hc.
    apply orb_true_iff in Hc. destruct Hc as [Hc|Hc];
      [|apply orb_true_iff in Hc; destruct Hc as [Hc|Hc]];
      apply Ascii.eqb_eq in Hc; subst c;
      cbn [parse]; destruct (dangling rest); reflexivity. }
  cbn [filter_datum]. unfold re.sub. rewrite Hparse. reflexivity.
Qed.

Lemma quantifier_separator_raises_witness :
  filter_datum PII_FIELDS "XXX" "name=Bob+ ssn=1+ " "+ " =
  Raises (re_error MultipleRepeat).
Proof.
  apply (@quantifier_separator_raises "name" ["email"; "phone"; "ssn"; "password"]
           "XXX" "name=Bob+ ssn=1+ " "+" " ");
    reflexivity.
Defined.

(** * Beyond the claims: cells, lines and columns *)

(** X5.  Conditions: the separator is one character; no character of the
    field names and of the separator has a meaning in a pattern (none of
    [. \ [ { ( ) * + ? ^ $ |]); the token holds no backslash; [f=token] of
    every listed field holds neither the separator character nor a newline;
    the message is cells joined by the separator, each cell but the last
    free of the separator character and of newlines, the last free of the
    separator character.  Then each cell but the last is rewritten on its
    own, whatever stands around it: field after field in the order of the
    list, from its first [f=] on it gives way to [f=token].  The last cell,
    which no separator follows, is returned as it is, listed field or
    not. *)
Theorem cells_are_rewritten_separately (fields : list str) (redaction : str)
    (sp : ascii) (ws : list str) (z : str) :
  forallb plain fields = true ->
  no_backslash redaction = true ->
  plain [sp] = true ->
  forallb (fun f => free sp (f ++ "=" ++ redaction)) fields = true ->
  forallb (free sp) ws = true ->
  occurs [sp] z = false ->
  filter_datum fields redaction (join [sp] (ws ++ [z])) [sp] =
  Ok (join [sp] (map (cells fields redaction) ws ++ [z])).
Proof.
  intros Hp Hr Hs Hf Hws Hz. rewrite filter_datum_plain by assumption.
  f_equal. now apply spec_redact_join.
Qed.

Lemma cells_are_rewritten_separately_witness :
  filter_datum PII_FIELDS "XXX"
    (join " " (["id=7"; "name=Bob"; "my-email=b@x.org,phone=1"] ++ ["ssn=12"]))
    " " =
  Ok "id=7 name=XXX my-email=XXX ssn=12".
Proof.
  apply (@cells_are_rewritten_separately PII_FIELDS "XXX" " "
           ["id=7"; "name=Bob"; "my-email=b@x.org,phone=1"] "ssn=12");
    reflexivity.
Defined.

Lemma str_eqb_eq (a b : str) : str_eqb a b = true <-> a = b.
Proof.
  revert b. induction a as [|x a IH]; intros [|y b]; cbn [str_eqb];
    try (split; [discriminate | discriminate]); [tauto|].
  rewrite andb_true_iff, Ascii.eqb_eq, IH. split.
  - intros [-> ->]. reflexivity.
  - intros H. inversion H. auto.
Qed.

Lemma str_eqb_refl (a : str) : str_eqb a a = true.
Proof. now apply str_eqb_eq. Qed.

Lemma elem_cons_false (c x : ascii) (s : str) :
  elem c (x :: s) = false -> Ascii.eqb x c = false /\ elem c s = false.
Proof.
  unfold elem. cbn [existsb]. rewrite orb_false_iff, Ascii.eqb_sym. tauto.
Qed.

(** [f=] at the head of [key=value], where neither name holds a [=]. *)
Lemma strip_token (v : str) :
  forall f k,
    elem "=" f = false -> elem "=" k = false ->
    strip_prefix (f ++ "=") (k ++ "=" ++ v) =
    if str_eqb k f then Some v else None.
Proof.
  induction f as [|x f IH]; intros k Hf Hk.
  - destruct k as [|c k]; cbn [app strip_prefix str_eqb].
    + now destruct v.
    + apply elem_cons_false in Hk. destruct Hk as [Hc _].
      now rewrite Ascii.eqb_sym, Hc.
  - apply elem_cons_false in Hf. destruct Hf as [Hx Hf].
    destruct k as [|c k]; cbn [app strip_prefix str_eqb].
    + now rewrite Hx.
    + apply elem_cons_false in Hk. destruct Hk as [_ Hk].
      rewrite (Ascii.eqb_sym c x).
      destruct (Ascii.eqb x c); [now apply IH | reflexivity].
Qed.

Lemma token_absent (f v : str) :
  elem "=" v = false -> occurs (f ++ "=") v = false.
Proof.
  induction v as [|c v IH]; intros Hv.
  - cbn [occurs]. now destruct f.
  - pose proof (elem_cons_false _ _ _ Hv) as [Hc Hv'].
    cbn [occurs].
    destruct (strip_prefix (f ++ "=") (c :: v)) as [r|] eqn:E;
      [|now apply IH].
    apply strip_prefix_Some in E.
    assert (H : elem "=" (c :: v) = true)
      by (rewrite E, !elem_app; cbn; now rewrite orb_true_r).
    congruence.
Qed.

(** One pass on a column: the value gives way to the token when the key
    ends with the field name. *)
Lemma cell_column (f red v : str) :
  elem "=" f = false -> elem "=" v = false ->
  forall k,
    elem "=" k = false ->
    cell (f ++ "=") (f ++ "=" ++ red) (k ++ "=" ++ v) =
    k ++ "=" ++ (if endswith k f then red else v).
Proof.
  intros Hf Hv. induction k as [|c k IH]; intros Hk.
  - pose proof (@strip_token v f [] Hf Hk) as E. cbn [app] in E |- *.
    cbn [cell endswith]. rewrite E, orb_false_r.
    destruct (str_eqb [] f) eqn:Ef.
    + apply str_eqb_eq in Ef. now subst f.
    + f_equal. apply cell_absent. now apply token_absent.
  - pose proof (@strip_token v f (c :: k) Hf Hk) as E.
    pose proof (elem_cons_false _ _ _ Hk) as [_ Hk'].
    cbn [app] in E |- *. cbn [cell endswith]. rewrite E.
    destruct (str_eqb (c :: k) f) eqn:Ef.
    + apply str_eqb_eq in Ef. subst f. reflexivity.
    + cbn [orb]. f_equal. now apply IH.
Qed.

Lemma cells_column (red k : str) (fields : list str) :
  forallb (fun f => negb (elem "=" f)) fields = true ->
  elem "=" red = false -> elem "=" k = false ->
  forall v,
    elem "=" v = false ->
    cells fields red (k ++ "=" ++ v) = mask fields red k v.
Proof.
  intros Hf Hr Hk. unfold mask.
  induction fields as [|f fields IH]; intros v Hv; [reflexivity|].
  cbn [forallb] in Hf. apply andb_true_iff in Hf. destruct Hf as [Hf Hfs].
  apply negb_true_iff in Hf.
  cbn [cells existsb]. rewrite cell_column by assumption.
  destruct (endswith k f); cbn [orb].
  - rewrite (IH Hfs red Hr). now destruct (existsb (endswith k) fields).
  - now apply IH.
Qed.

Lemma clean_facts (sp : ascii) (s : str) :
  clean sp s = true -> free sp s = true /\ elem "=" s = false.
Proof.
  unfold clean. now rewrite andb_true_iff, negb_true_iff.
Qed.

Lemma free_equals (sp : ascii) :
  Ascii.eqb sp "=" = false -> free sp "=" = true.
Proof.
  intros H. unfold free, delim. cbn [forallb].
  rewrite Ascii.eqb_sym, H. reflexivity.
Qed.

Lemma column_free (sp : ascii) (k v : str) :
  Ascii.eqb sp "=" = false -> free sp k = true -> free sp v = true ->
  free sp (k ++ "=" ++ v) = true.
Proof.
  intros Hsp Hk Hv. now rewrite !free_app, Hk, Hv, free_equals.
Qed.

Lemma spec_redact_columns (fields : list str) (redaction : str)
    (sp : ascii) (columns : list (str * str)) (key value : str) :
  Ascii.eqb sp "=" = false ->
  forallb (clean sp) (redaction :: fields) = true ->
  forallb (fun kv => clean sp (fst kv) && clean sp (snd kv))
          ((key, value) :: columns) = true ->
  spec_redact not_newline fields redaction
    (join [sp] (map (fun kv => fst kv ++ "=" ++ snd kv) columns
                ++ [key ++ "=" ++ value])) [sp] =
  join [sp] (map (fun kv => mask fields redaction (fst kv) (snd kv)) columns
             ++ [key ++ "=" ++ value]).
Proof.
  intros Hsp Hclean Hcols.
  cbn [forallb fst snd] in Hclean, Hcols.
  apply andb_true_iff in Hclean. destruct Hclean as [Hred Hfields].
  apply andb_true_iff in Hcols. destruct Hcols as [Hlast Hcols].
  apply andb_true_iff in Hlast. destruct Hlast as [Hkey Hvalue].
  apply clean_facts in Hred, Hkey, Hvalue.
  destruct Hred as [Hred1 Hred2], Hkey as [Hkey _], Hvalue as [Hvalue _].
  rewrite forallb_forall in Hfields, Hcols.
  assert (Hfree : forallb (fun f => free sp (f ++ "=" ++ redaction)) fields = true).
  { apply forallb_forall. intros f Hin.
    destruct (clean_facts _ _ (Hfields f Hin)) as [Hf _].
    now apply column_free. }
  assert (Heq : forallb (fun f => negb (elem "=" f)) fields = true).
  { apply forallb_forall. intros f Hin.
    destruct (clean_facts _ _ (Hfields f Hin)) as [_ Hf]. now rewrite Hf. }
  rewrite spec_redact_join; try assumption.
  - rewrite map_map. f_equal. f_equal. apply map_ext_in. intros [k v] Hin.
    specialize (Hcols _ Hin). cbn [fst snd] in Hcols |- *.
    apply andb_true_iff in Hcols. destruct Hcols as [Hk Hv].
    apply clean_facts in Hk, Hv. destruct Hk as [_ Hk], Hv as [_ Hv].
    now apply cells_column.
  - apply free_no_sep. now apply column_free.
  - apply forallb_forall. intros w Hin. apply in_map_iff in Hin.
    destruct Hin as [[k v] [<- Hin]]. specialize (Hcols _ Hin).
    cbn [fst snd] in Hcols |- *.
    apply andb_true_iff in Hcols. destruct Hcols as [Hk Hv].
    apply clean_facts in Hk, Hv. destruct Hk as [Hk _], Hv as [Hv _].
    now apply column_free.
Qed.

(** X6.  Conditions: the separator is one character other than [=]; no
    character of the field names and of the separator has a meaning in a
    pattern (none of [. \ [ { ( ) * + ? ^ $ |]); the token holds no
    backslash; field names, token, keys and values hold no [=], no
    separator character and no newline; the message is columns [key=value]
    joined by the separator.  Then a column that a separator follows has
    its value replaced by the token exactly when its key ends with a listed
    field name (the key need not be the field name), and is copied
    otherwise; the last column is copied even when its key is listed. *)
Theorem columns_masked_by_key_suffix (fields : list str) (redaction : str)
    (sp : ascii) (columns : list (str * str)) (key value : str) :
  forallb plain fields = true ->
  no_backslash redaction = true ->
  plain [sp] = true ->
  Ascii.eqb sp "=" = false ->
  forallb (clean sp) (redaction :: fields) = true ->
  forallb (fun kv => clean sp (fst kv) && clean sp (snd kv))
          ((key, value) :: columns) = true ->
  filter_datum fields redaction
    (join [sp] (map (fun kv => fst kv ++ "=" ++ snd kv) columns
                ++ [key ++ "=" ++ value])) [sp] =
  Ok (join [sp] (map (fun kv => mask fields redaction (fst kv) (snd kv)) columns
                 ++ [key ++ "=" ++ value])).
Proof.
  intros Hp Hr Hs Hsp Hclean Hcols.
  rewrite filter_datum_plain by assumption. f_equal.
  now apply spec_redact_columns.
Qed.

Lemma columns_masked_by_key_suffix_witness :
  filter_datum PII_FIELDS "XXX"
    "id=7 username=bob hostname=h1 email=b@x.org mail=m@x.org password=pw" " " =
  Ok "id=7 username=XXX hostname=XXX email=XXX mail=m@x.org password=pw".
Proof.
  apply (@columns_masked_by_key_suffix PII_FIELDS "XXX" " "
           [("id", "7"); ("username", "bob"); ("hostname", "h1");
            ("email", "b@x.org"); ("mail", "m@x.org")] "password" "pw");
    reflexivity.
Defined.

(** ** A second pass for the same field *)

Lemma strip_prefix_short (P : str) :
  forall T x y,
    length P <= length T ->
    strip_prefix P (T ++ x) = None -> strip_prefix P (T ++ y) = None.
Proof.
  induction P as [|p P IH]; intros T x y Hlen H.
  - now rewrite strip_prefix_nil in H.
  - destruct T as [|t T]; cbn [length] in Hlen; [lia|].
    cbn [app strip_prefix] in H |- *.
    destruct (Ascii.eqb p t); [|reflexivity].
    apply (IH T x y); [lia | assumption].
Qed.

(** A pass does not bring its own token to a place where it was not. *)
Lemma cell_keeps_None (T red : str) :
  forall u P,
    length P <= length T ->
    strip_prefix P u = None ->
    strip_prefix P (cell T (T ++ red) u) = None.
Proof.
  induction u as [|c u IH]; intros P Hlen H.
  - cbn [cell]. destruct (strip_prefix T []) as [x|] eqn:E; [|assumption].
    apply strip_prefix_Some in E. symmetry in E. apply app_eq_nil in E.
    destruct E as [-> _]. destruct P; [|cbn [length] in Hlen; lia].
    discriminate H.
  - destruct (strip_prefix T (c :: u)) as [x|] eqn:E.
    + rewrite (@cell_prefix T (T ++ red) (c :: u) x E).
      rewrite (strip_prefix_Some _ _ E) in H.
      now apply strip_prefix_short with x.
    + rewrite (@cell_cons T (T ++ red) u c E).
      destruct P as [|p P]; [discriminate H|].
      cbn [strip_prefix] in H |- *.
      destruct (Ascii.eqb p c); [|reflexivity].
      apply IH; [cbn [length] in Hlen; lia | assumption].
Qed.

Lemma cell_idempotent (T red w : str) :
  cell T (T ++ red) (cell T (T ++ red) w) = cell T (T ++ red) w.
Proof.
  induction w as [|c w IH].
  - cbn [cell]. destruct (strip_prefix T []) as [x|] eqn:E.
    + apply (@cell_prefix T (T ++ red) (T ++ red) red). apply strip_prefix_app.
    + cbn [cell]. now rewrite E.
  - destruct (strip_prefix T (c :: w)) as [x|] eqn:E.
    + rewrite (@cell_prefix T (T ++ red) (c :: w) x E).
      apply (@cell_prefix T (T ++ red) (T ++ red) red). apply strip_prefix_app.
    + pose proof (@cell_keeps_None T red (c :: w) T (le_n _) E) as H.
      rewrite (@cell_cons T (T ++ red) w c E) in H |- *.
      rewrite (@cell_cons T (T ++ red) _ c H). now f_equal.
Qed.

Lemma spec_redact_field_idempotent (f red : str) (sp : ascii) :
  free sp (f ++ "=" ++ red) = true ->
  forall n s,
    length s < n ->
    spec_redact_field not_newline f red [sp]
      (spec_redact_field not_newline f red [sp] s) =
    spec_redact_field not_newline f red [sp] s.
Proof.
  intros Hfree. induction n as [|n IH]; intros s Hn; [lia|].
  destruct (head_run sp s) as [w [rest [Hs [Hw Hrest]]]]. subst s.
  destruct Hrest as [-> | [d [y [-> Hd]]]].
  - rewrite app_nil_r. pose proof (free_no_sep _ _ Hw) as Hno.
    now rewrite !(@spec_redact_field_no_sep f red [sp] w Hno).
  - assert (Hy : length y < n)
      by (rewrite length_app in Hn; cbn [length] in Hn; lia).
    assert (Hcell : forall y', length y' < n ->
      spec_redact_field not_newline f red [sp]
        (spec_redact_field not_newline f red [sp] (w ++ sp :: y')) =
      spec_redact_field not_newline f red [sp] (w ++ sp :: y')).
    { intros y' Hy'. rewrite (@redact_cell f red sp Hfree y' w Hw).
      rewrite (@redact_cell f red sp Hfree) by now apply cell_free.
      rewrite (IH y' Hy'). f_equal.
      replace (f ++ "=" ++ red) with ((f ++ "=") ++ red)
        by now rewrite <- app_assoc.
      apply cell_idempotent. }
    destruct (delim_cases _ _ Hd) as [-> | ->]; [now apply Hcell|].
    destruct (Ascii.eqb sp newline) eqn:Hsp.
    + apply Ascii.eqb_eq in Hsp. rewrite <- Hsp. now apply Hcell.
    + rewrite !(@redact_line f red sp Hfree Hsp) by assumption.
      now rewrite (IH y Hy).
Qed.

(** X7.  Conditions: the separator is one character; no character of the
    field name and of the separator has a meaning in a pattern (none of
    [. \ [ { ( ) * + ? ^ $ |]); the token holds no backslash; [f=token]
    holds neither the separator character nor a newline.  Then, for every
    message, what the pass for [f] returns, a second pass for [f] leaves as
    it is, and the field list [[f; f]] gives what [[f]] gives.  (With a
    token that holds the separator it need not: the token ["X name=Y"] is
    redacted again.) *)
Theorem second_pass_changes_nothing (f redaction : str) (sp : ascii)
    (message : str) :
  plain f = true ->
  no_backslash redaction = true ->
  plain [sp] = true ->
  free sp (f ++ "=" ++ redaction) = true ->
  exists out,
    filter_datum [f] redaction message [sp] = Ok out /\
    filter_datum [f] redaction out [sp] = Ok out /\
    filter_datum [f; f] redaction message [sp] = Ok out.
Proof.
  intros Hf Hr Hs Hfree.
  assert (Hfs : forallb plain [f] = true) by (cbn [forallb]; now rewrite Hf).
  assert (Hff : forallb plain [f; f] = true) by (cbn [forallb]; now rewrite Hf).
  exists (spec_redact_field not_newline f redaction [sp] message).
  rewrite !(@filter_datum_plain [f] redaction [sp] Hfs Hr Hs).
  rewrite (@filter_datum_plain [f; f] redaction [sp] Hff Hr Hs).
  cbn [spec_redact].
  rewrite (@spec_redact_field_idempotent f redaction sp Hfree
             (S (length message)) message (le_n _)).
  auto.
Qed.

Lemma second_pass_changes_nothing_witness :
  exists out,
    filter_datum ["name"] "XXX" "name=a surname=b c" " " = Ok out /\
    filter_datum ["name"] "XXX" out " " = Ok out /\
    filter_datum ["name"; "name"] "XXX" "name=a surname=b c" " " = Ok out.
Proof.
  apply (@second_pass_changes_nothing "name" "XXX" " " "name=a surname=b c");
    reflexivity.
Defined.

(** ** Lines *)

Lemma strip_prefix_line (y : str) :
  forall T x,
    elem newline T = false ->
    strip_prefix T (x ++ newline :: y) =
    match strip_prefix T x with
    | Some v => Some (v ++ newline :: y)
    | None => None
    end.
Proof.
  induction T as [|t T IH]; intros x HT.
  - now rewrite !strip_prefix_nil.
  - apply elem_cons_false in HT. destruct HT as [Ht HT].
    destruct x as [|c x]; cbn [app strip_prefix].
    + now rewrite Ht.
    + destruct (Ascii.eqb t c); [now apply IH | reflexivity].
Qed.

Lemma after_separator_line (sp : ascii) (y v : str) :
  Ascii.eqb sp newline = false ->
  after_separator not_newline [sp] (v ++ newline :: y) =
  match after_separator not_newline [sp] v with
  | Some r => Some (r ++ newline :: y)
  | None => None
  end.
Proof.
  intros Hsp. induction v as [|c v IH]; cbn [app after_separator strip_prefix].
  - rewrite Hsp. unfold not_newline. now rewrite Ascii.eqb_refl.
  - destruct (Ascii.eqb sp c); [reflexivity|].
    destruct (not_newline c); [apply IH | reflexivity].
Qed.

Lemma span_at_lines (f : str) (sp : ascii) (x y : str) :
  elem newline f = false -> Ascii.eqb sp newline = false ->
  span_at not_newline f [sp] (x ++ newline :: y) =
  match span_at not_newline f [sp] x with
  | Some r => Some (r ++ newline :: y)
  | None => None
  end.
Proof.
  intros Hf Hsp. unfold span_at.
  rewrite strip_prefix_line by (rewrite elem_app, Hf; reflexivity).
  destruct (strip_prefix (f ++ "=") x); [|reflexivity].
  now apply after_separator_line.
Qed.

Lemma spec_redact_field_lines (f red : str) (sp : ascii) (y : str) :
  elem newline f = false -> Ascii.eqb sp newline = false ->
  forall n x,
    length x < n ->
    spec_redact_field not_newline f red [sp] (x ++ newline :: y) =
    spec_redact_field not_newline f red [sp] x
      ++ newline :: spec_redact_field not_newline f red [sp] y.
Proof.
  intros Hf Hsp. induction n as [|n IH]; intros x Hn; [lia|].
  rewrite (spec_redact_field_eq not_newline f red [sp] (x ++ newline :: y)).
  rewrite (spec_redact_field_eq not_newline f red [sp] x).
  rewrite span_at_lines by assumption.
  destruct (span_at not_newline f [sp] x) as [r|] eqn:E.
  - apply span_at_length in E. rewrite IH by lia.
    now rewrite <- !app_assoc.
  - destruct x as [|c x]; [reflexivity|].
    cbn [app]. f_equal. apply IH. cbn [length] in Hn. lia.
Qed.

Lemma spec_redact_lines (red : str) (sp : ascii) (fields : list str) :
  forallb (fun f => negb (elem newline f)) fields = true ->
  Ascii.eqb sp newline = false ->
  forall x y,
    spec_redact not_newline fields red (x ++ newline :: y) [sp] =
    spec_redact not_newline fields red x [sp]
      ++ newline :: spec_redact not_newline fields red y [sp].
Proof.
  intros Hf Hsp. induction fields as [|f fields IH]; intros x y; [reflexivity|].
  cbn [forallb] in Hf. apply andb_true_iff in Hf. destruct Hf as [Hf Hfs].
  apply negb_true_iff in Hf. cbn [spec_redact].
  rewrite (@spec_redact_field_lines f red sp y Hf Hsp (S (length x)) x (le_n _)).
  now apply IH.
Qed.

(** X8.  Conditions: the separator is one character other than a
    newline; no character of the field names and of the separator has a
    meaning in a pattern (none of [. \ [ { ( ) * + ? ^ $ |]); the token
    holds no backslash; no field name holds a newline.  Then the lines of a
    message are redacted one by one: the result for two texts joined by a
    newline is the two results joined by a newline.  No span reaches across
    a line end. *)
Theorem lines_are_redacted_separately (fields : list str) (redaction : str)
    (sp : ascii) (x y : str) :
  forallb plain fields = true ->
  no_backslash redaction = true ->
  plain [sp] = true ->
  Ascii.eqb sp newline = false ->
  forallb (fun f => negb (elem newline f)) fields = true ->
  filter_datum fields redaction (x ++ newline :: y) [sp] =
  (a <- filter_datum fields redaction x [sp] ;;
   b <- filter_datum fields redaction y [sp] ;;
   Ok (a ++ newline :: b)).
Proof.
  intros Hp Hr Hs Hsp Hf.
  rewrite !(@filter_datum_plain fields redaction [sp] Hp Hr Hs).
  cbn [bind]. f_equal. now apply spec_redact_lines.
Qed.

Lemma lines_are_redacted_separately_witness :
  filter_datum PII_FIELDS "XXX"
    ("name=Bob ssn=1" ++ newline :: "2 email=b@x.org id=7") " " =
  Ok ("name=XXX ssn=1" ++ newline :: "2 email=XXX id=7").
Proof.
  apply (@lines_are_redacted_separately PII_FIELDS "XXX" " "
           "name=Bob ssn=1" "2 email=b@x.org id=7"); reflexivity.
Defined.

(** ** The order of the fields *)

Lemma pairwise_independent (red : str) (sp : ascii) (fields : list str) :
  forallb (fun a =>
    forallb (fun b => str_eqb a b || independent a b red sp) fields) fields
    = true ->
  forall a b, In a fields -> In b fields ->
    a = b \/ independent a b red sp = true.
Proof.
  intros H a b Ha Hb. rewrite forallb_forall in H. specialize (H a Ha).
  rewrite forallb_forall in H. specialize (H b Hb).
  apply orb_true_iff in H. destruct H as [H|H]; [left | now right].
  now apply str_eqb_eq.
Qed.

Lemma spec_redact_permutation (red : str) (sp : ascii) (l l' : list str) :
  Permutation l l' ->
  (forall a b, In a l -> In b l -> a = b \/ independent a b red sp = true) ->
  forall s,
    spec_redact not_newline l red s [sp] = spec_redact not_newline l' red s [sp].
Proof.
  induction 1 as [|x l l' Hperm IH|x y l|l l' l'' H1 IH1 H2 IH2];
    intros Hind s.
  - reflexivity.
  - cbn [spec_redact]. apply IH. intros a b Ha Hb.
    apply Hind; now right.
  - cbn [spec_redact]. f_equal.
    destruct (Hind x y) as [->|Hxy];
      [right; now left | now left | reflexivity |].
    now apply spec_redact_field_commute.
  - rewrite IH1 by assumption. apply IH2. intros a b Ha Hb.
    apply Hind; apply Permutation_in with l'; try assumption;
      now apply Permutation_sym.
Qed.

(** X9.  Conditions: the separator is one character; no character of the
    field names and of the separator has a meaning in a pattern (none of
    [. \ [ { ( ) * + ? ^ $ |]); the token holds no backslash; any two
    different names [a], [b] of the list are independent: the first
    character of [a=] is absent from [b=token], that of [b=] from
    [a=token], neither [a=token] nor [b=token] holds the separator
    character or a newline, and the separator is not a newline.  Then a
    reordered list (any permutation) gives the same result on every
    message. *)
Theorem field_order_is_irrelevant (fields fields' : list str)
    (redaction : str) (sp : ascii) (message : str) :
  forallb plain fields = true ->
  no_backslash redaction = true ->
  plain [sp] = true ->
  forallb (fun a =>
    forallb (fun b => str_eqb a b || independent a b redaction sp) fields)
    fields = true ->
  Permutation fields fields' ->
  filter_datum fields redaction message [sp] =
  filter_datum fields' redaction message [sp].
Proof.
  intros Hp Hr Hs Hind Hperm.
  assert (Hp' : forallb plain fields' = true).
  { rewrite forallb_forall in Hp |- *. intros f Hin. apply Hp.
    apply Permutation_in with fields'; [now apply Permutation_sym | assumption]. }
  rewrite !filter_datum_plain by assumption. f_equal.
  apply spec_redact_permutation; [assumption|].
  now apply pairwise_independent.
Qed.

Lemma field_order_is_irrelevant_witness :
  filter_datum ["name"; "password"; "id"] "XXX"
    "id=7 name=Bob password=pw id=8 " " " =
  filter_datum ["id"; "password"; "name"] "XXX"
    "id=7 name=Bob password=pw id=8 " " ".
Proof.
  apply (@field_order_is_irrelevant ["name"; "password"; "id"]
           ["id"; "password"; "name"] "XXX" " "
           "id=7 name=Bob password=pw id=8 "); try reflexivity.
  apply Permutation_trans with ["password"; "name"; "id"];
    [apply perm_swap|].
  apply Permutation_trans with ["password"; "id"; "name"];
    [apply perm_skip; apply perm_swap | apply perm_swap].
Defined.

(** ** Values that are not hidden *)

(** X10.  Conditions: the separator is one character; no character of
    the field name and of the separator has a meaning in a pattern (none of
    [. \ [ { ( ) * + ? ^ $ |]); the token holds no backslash; [f=token],
    [v1] and [v2] hold neither the separator character nor a newline; [f=]
    does not occur in [v2].  Then a value that holds the separator is
    hidden up to its first separator only: in [f=v1 v2 rest] the pass for
    [f] replaces [v1], and [v2], the rest of the value, is returned as it
    is, followed by what the pass returns for [rest]. *)
Theorem value_masked_up_to_first_separator (f redaction : str) (sp : ascii)
    (v1 v2 rest : str) :
  plain f = true ->
  no_backslash redaction = true ->
  plain [sp] = true ->
  free sp (f ++ "=" ++ redaction) = true ->
  free sp v1 = true ->
  free sp v2 = true ->
  occurs (f ++ "=") v2 = false ->
  filter_datum [f] redaction (f ++ "=" ++ v1 ++ sp :: v2 ++ sp :: rest) [sp] =
  (out <- filter_datum [f] redaction rest [sp] ;;
   Ok (f ++ "=" ++ redaction ++ sp :: v2 ++ sp :: out)).
Proof.
  intros Hf Hr Hs Hfree Hv1 Hv2 Habs.
  assert (Hfs : forallb plain [f] = true) by (cbn [forallb]; now rewrite Hf).
  rewrite !(@filter_datum_plain [f] redaction [sp] Hfs Hr Hs).
  cbn [spec_redact bind]. f_equal.
  assert (Hw : free sp (f ++ "=" ++ v1) = true).
  { pose proof (@token_free f redaction sp Hfree) as Ht.
    rewrite free_app in Ht. apply andb_true_iff in Ht. destruct Ht as [H1 H2].
    now rewrite !free_app, H1, H2, Hv1. }
  replace (f ++ "=" ++ v1 ++ sp :: v2 ++ sp :: rest)
    with ((f ++ "=" ++ v1) ++ sp :: v2 ++ sp :: rest)
    by now rewrite <- !app_assoc.
  rewrite (@redact_cell f redaction sp Hfree _ _ Hw).
  rewrite (@redact_cell f redaction sp Hfree _ _ Hv2).
  rewrite (@cell_absent (f ++ "=") (f ++ "=" ++ redaction) v2 Habs).
  rewrite (@cell_prefix (f ++ "=") (f ++ "=" ++ redaction) (f ++ "=" ++ v1) v1).
  - now rewrite <- !app_assoc.
  - replace (f ++ "=" ++ v1) with ((f ++ "=") ++ v1)
      by now rewrite <- app_assoc.
    apply strip_prefix_app.
Qed.

Lemma value_masked_up_to_first_separator_witness :
  filter_datum ["name"] "XXX" "name=Bob Smith email=b@x.org" " " =
  Ok "name=XXX Smith email=b@x.org".
Proof.
  apply (@value_masked_up_to_first_separator "name" "XXX" " "
           "Bob" "Smith" "email=b@x.org"); reflexivity.
Defined.

(** X11.  Conditions: no character of the field name has a meaning in a
    pattern (none of [. \ [ { ( ) * + ? ^ $ |]); the token holds no
    backslash; [f=] does not occur in the value.  Then the empty separator
    hides nothing: the pattern [f=.*?] stops right after the [=], so for the
    message [f=value] the token is put before the value and the value stays
    behind it. *)
Theorem empty_separator_hides_nothing (f redaction value : str) :
  plain f = true ->
  no_backslash redaction = true ->
  occurs (f ++ "=") value = false ->
  filter_datum [f] redaction (f ++ "=" ++ value) "" =
  Ok (f ++ "=" ++ redaction ++ value).
Proof.
  intros Hf Hr Habs.
  assert (Hfs : forallb plain [f] = true) by (cbn [forallb]; now rewrite Hf).
  rewrite (@filter_datum_plain [f] redaction "" Hfs Hr eq_refl).
  cbn [spec_redact]. f_equal. rewrite spec_redact_field_eq.
  assert (Hspan : span_at not_newline f "" (f ++ "=" ++ value) = Some value).
  { unfold span_at.
    replace (f ++ "=" ++ value) with ((f ++ "=") ++ value)
      by now rewrite <- app_assoc.
    rewrite strip_prefix_app. now destruct value. }
  rewrite Hspan, spec_redact_field_absent by assumption. reflexivity.
Qed.

Lemma empty_separator_hides_nothing_witness :
  filter_datum ["name"] "XXX" "name=Bob email=a" "" =
  Ok "name=XXXBob email=a".
Proof.
  apply (@empty_separator_hides_nothing "name" "XXX" "Bob email=a");
    reflexivity.
Defined.

(** * Beyond the claims: the logger and [main] *)

Lemma lookup_store (name : str) (l : Logger) (d : list (str * Logger)) :
  lookup name (store name l d) = Some l.
Proof.
  induction d as [|[n x] d IH]; cbn [store lookup].
  - now rewrite str_eqb_refl.
  - destruct (str_eqb n name) eqn:E; cbn [lookup]; now rewrite E.
Qed.

Lemma write_stderr_nil (st : Process) : write_stderr [] st = st.
Proof. destruct st. unfold write_stderr. cbn. now rewrite app_nil_r. Qed.

Lemma write_stderr_app (a b : str) (st : Process) :
  write_stderr b (write_stderr a st) = write_stderr (a ++ b) st.
Proof. unfold write_stderr. cbn. now rewrite app_assoc. Qed.

(** The formatter that [get_logger] installs returns a string for every
    record. *)
Lemma logger_formatter_total (record : LogRecord) :
  format Formatter_format logger_formatter record =
  Ok (spec_redact not_newline PII_FIELDS "XXX" (msg record) " ").
Proof.
  unfold format, Formatter_format. cbn [bind logger_formatter fields].
  now apply filter_datum_plain.
Qed.

Lemma emit_each (record : LogRecord) (out : str) (hs : list Handler) :
  Forall (fun h => Handler_format h record = Ok out) hs ->
  forall st,
    for_each hs (fun h => StreamHandler_emit h record) st =
    Ok (tt, write_stderr (concat (map (fun _ => out ++ [newline]) hs)) st).
Proof.
  induction 1 as [|h hs Hh Hhs IH]; intros st; cbn [for_each map concat].
  - unfold ret. now rewrite write_stderr_nil.
  - unfold bindM, StreamHandler_emit at 1. rewrite Hh, IH.
    now rewrite write_stderr_app.
Qed.

Lemma filter_all (A : Type) (p : A -> bool) (xs : list A) :
  forallb p xs = true -> filter p xs = xs.
Proof.
  induction xs as [|x xs IH]; [reflexivity|]. cbn [forallb filter].
  intros H. apply andb_true_iff in H. destruct H as [Hx Hxs].
  now rewrite Hx, IH.
Qed.

(** A logger as [get_logger] leaves it, with handlers that [get_logger]
    made: [info] writes the redacted message once for each handler. *)
Lemma Logger_info_writes (name message : str) (l : Logger) (st : Process) :
  lookup name (loggerDict st) = Some l ->
  disable st < INFO ->
  level l = INFO -> propagate l = false -> disabled l = false ->
  Forall (fun h => hlevel h = NOTSET /\ formatter h = Some logger_formatter)
         (handlers l) ->
  Logger_info name message st =
  Ok (tt, write_stderr
            (concat (map (fun _ =>
               spec_redact not_newline PII_FIELDS "XXX" message " " ++ [newline])
               (handlers l))) st).
Proof.
  intros Hl Hdis Hlevel Hprop Hd Hhs. unfold Logger_info. rewrite Hl.
  assert (Hen : isEnabledFor st l INFO = true).
  { unfold isEnabledFor. rewrite Hd, Hlevel.
    apply Nat.leb_gt in Hdis. rewrite Hdis. reflexivity. }
  rewrite Hen. unfold Logger_callHandlers. rewrite Hprop, app_nil_r.
  destruct (handlers l) as [|h hs] eqn:E.
  - cbn [levelno map concat]. now rewrite write_stderr_nil.
  - rewrite filter_all.
    + apply emit_each. eapply Forall_impl; [|exact Hhs].
      intros h' [_ Hfmt]. unfold Handler_format. rewrite Hfmt.
      apply logger_formatter_total.
    + apply forallb_forall. intros h' Hin. rewrite Forall_forall in Hhs.
      destruct (Hhs h' Hin) as [Hlv _]. rewrite Hlv. reflexivity.
Qed.

(** What [get_logger] does to the state: the logger [user_data], made if
    it was not there, gets the level [INFO], stops propagating and gets a
    new handler after those it had; nothing else changes. *)
Lemma get_logger_configures (st : Process) :
  let before :=
    match lookup "user_data" (loggerDict st) with
    | Some l => l
    | None => {| level := NOTSET; propagate := true; handlers := [];
                 disabled := false |}
    end in
  let h := {| hid := objects st; hlevel := NOTSET;
              formatter := Some logger_formatter |} in
  exists st',
    get_logger st = Ok ("user_data", st') /\
    lookup "user_data" (loggerDict st') =
      Some {| level := INFO; propagate := false;
              handlers :=
                if existsb (fun h' => hid h' =? hid h) (handlers before)
                then handlers before else handlers before ++ [h];
              disabled := disabled before |} /\
    environ st' = environ st /\ root st' = root st /\
    disable st' = disable st /\ objects st' = S (objects st) /\
    stderr st' = stderr st.
Proof.
  intros before h. unfold get_logger, bindM, logging_getLogger.
  replace (str_eqb "user_data" "" || str_eqb "user_data" "root"
           || elem "." "user_data") with false by reflexivity.
  unfold Logger_setLevel, Logger_set_propagate, Logger_addHandler,
    update_logger, logging_StreamHandler, ret.
  subst before.
  destruct (lookup "user_data" (loggerDict st)) as [l|] eqn:E;
    cbn [loggerDict set_logger]; rewrite ?E, ?lookup_store;
    cbn [loggerDict set_logger]; rewrite ?lookup_store;
    cbn [loggerDict set_logger]; rewrite ?lookup_store;
    eexists; (split; [reflexivity|]);
    cbn [loggerDict set_logger environ root disable objects stderr];
    rewrite lookup_store; repeat split.
Qed.





(** X13.  The first [get_logger] of a process followed by [info]: the
    message is written to [sys.stderr] once, redacted and ended by a
    newline, and the formatter raises for no message.  The handlers and the
    level of the root logger play no part (the logger does not propagate and
    has its own level). *)
Theorem first_logger_writes_one_line (st : Process) (message : str) :
  lookup "user_data" (loggerDict st) = None ->
  disable st < INFO ->
  exists out st',
    filter_datum PII_FIELDS "XXX" message " " = Ok out /\
    (logger <- get_logger ;; Logger_info logger message)%proc st
      = Ok (tt, st') /\
    stderr st' = stderr st ++ out ++ [newline] /\
    root st' = root st.
Proof.
  intros Hl Hdis.
  destruct (get_logger_configures st) as [st1 [Hrun [Hl1 [_ [Hr1 [Hd1 [_ He1]]]]]]].
  rewrite Hl in Hl1. cbn [hid handlers existsb app disabled] in Hl1.
  exists (spec_redact not_newline PII_FIELDS "XXX" message " ").
  eexists. split; [now apply filter_datum_plain|].
  unfold bindM. rewrite Hrun.
  rewrite (@Logger_info_writes "user_data" message _ st1 Hl1);
    try reflexivity; try (rewrite Hd1; assumption).
  - split; [reflexivity|]. cbn [stderr root write_stderr handlers map concat].
    now rewrite He1, Hr1, app_nil_r.
  - repeat constructor.
Qed.

Lemma first_logger_writes_one_line_witness :
  exists out st',
    filter_datum PII_FIELDS "XXX" "name=Bob id=7" " " = Ok out /\
    (logger <- get_logger ;; Logger_info logger "name=Bob id=7")%proc
      (startup (fun _ => None)) = Ok (tt, st') /\
    stderr st' = stderr (startup (fun _ => None)) ++ out ++ [newline] /\
    root st' = root (startup (fun _ => None)).
Proof.
  apply (@first_logger_writes_one_line (startup (fun _ => None)) "name=Bob id=7").
  - reflexivity.
  - cbn. unfold INFO. lia.
Defined.

(** [get_db] reads the environment and leaves the state as it is. *)
Lemma get_db_environ (Connection : Type)
    (connect : ConnectArgs -> option Connection) (st st1 : Process) :
  environ st1 = environ st ->
  get_db connect st1 =
  match get_db connect st with
  | Ok (db, _) => Ok (db, st1)
  | Raises e => Raises e
  | Unmodelled => Unmodelled
  end.
Proof.
  intros He. unfold get_db, bindM, environ_get, environ_get_opt, lift, ret.
  rewrite He. now destruct (connect _).
Qed.

Lemma log_rows (Value : Type) (str_of : Value -> str) (l : Logger)
    (rows : list (list (str * Value))) :
  level l = INFO -> propagate l = false -> disabled l = false ->
  Forall (fun h => hlevel h = NOTSET /\ formatter h = Some logger_formatter)
         (handlers l) ->
  forall st,
    lookup "user_data" (loggerDict st) = Some l ->
    disable st < INFO ->
    for_each rows
      (fun row => Logger_info "user_data" (log_message str_of row)) st =
    Ok (tt, write_stderr
              (flat_map (fun row =>
                 concat (map (fun _ =>
                   spec_redact not_newline PII_FIELDS "XXX"
                     (log_message str_of row) " " ++ [newline])
                   (handlers l))) rows) st).
Proof.
  intros Hlevel Hprop Hd Hhs.
  induction rows as [|row rows IH]; intros st Hl Hdis; cbn [for_each flat_map].
  - unfold ret. now rewrite write_stderr_nil.
  - unfold bindM.
    rewrite (@Logger_info_writes "user_data" _ l st Hl Hdis Hlevel Hprop Hd Hhs).
    rewrite IH by assumption. now rewrite write_stderr_app.
Qed.

(** [main] from the first use of the logger, when the database answers. *)
Lemma main_runs (Value : Type) (str_of : Value -> str) (Connection : Type)
    (connect : ConnectArgs -> option Connection)
    (fetch_users : Connection -> option (list (list (str * Value))))
    (st : Process) (db : Connection) (rows : list (list (str * Value))) :
  lookup "user_data" (loggerDict st) = None ->
  disable st < INFO ->
  get_db connect st = Ok (db, st) ->
  fetch_users db = Some rows ->
  exists st',
    main str_of connect fetch_users st = Ok (tt, st') /\
    stderr st' =
      stderr st ++
      flat_map (fun row =>
        spec_redact not_newline PII_FIELDS "XXX" (log_message str_of row) " "
          ++ [newline]) rows.
Proof.
  intros Hl Hdis Hdb Hrows.
  destruct (get_logger_configures st) as [st1 [Hrun [Hl1 [He [_ [Hd1 [_ Hs1]]]]]]].
  rewrite Hl in Hl1. cbn [hid handlers existsb app disabled] in Hl1.
  eexists. unfold main, bindM. rewrite Hrun.
  rewrite (@get_db_environ Connection connect st st1 He), Hdb.
  unfold lift at 1. rewrite Hrows.
  rewrite (@log_rows Value str_of _ rows) with (st := st1) (1 := eq_refl)
    (2 := eq_refl) (3 := eq_refl) (5 := Hl1);
    [| repeat constructor | rewrite Hd1; assumption].
  unfold ret. split; [reflexivity|].
  cbn [stderr write_stderr handlers map concat]. rewrite Hs1. f_equal.
  apply flat_map_ext. intros row. now rewrite app_nil_r.
Qed.



(** The line of a row whose keys and values are clean. *)
Lemma row_line (Value : Type) (str_of : Value -> str)
    (row : list (str * Value)) :
  forallb (fun kv => clean " " (fst kv) && clean " " (str_of (snd kv))) row
    = true ->
  spec_redact not_newline PII_FIELDS "XXX" (log_message str_of row) " " =
  join " "
    (map (fun kv => mask PII_FIELDS "XXX" (fst kv) (str_of (snd kv)))
         (removelast row)
     ++ map (fun kv => fst kv ++ "=" ++ str_of (snd kv))
            (skipn (length row - 1) row)).
Proof.
  intros Hrow. destruct row as [|x row]; [reflexivity|].
  destruct (@exists_last _ (x :: row)) as [cols [[key value] E]];
    [discriminate|].
  rewrite E in Hrow |- *. clear E x row.
  rewrite removelast_last.
  assert (Hlast : skipn (length (cols ++ [(key, value)]) - 1)
                    (cols ++ [(key, value)]) = [(key, value)]).
  { rewrite length_app. cbn [length].
    replace (length cols + 1 - 1) with (length cols) by lia.
    rewrite skipn_app, skipn_all, Nat.sub_diag. reflexivity. }
  rewrite Hlast. unfold log_message. rewrite map_app. cbn [map fst snd].
  rewrite forallb_app in Hrow. apply andb_true_iff in Hrow.
  destruct Hrow as [Hcols Hlastc]. cbn [forallb fst snd] in Hlastc.
  rewrite andb_true_r in Hlastc.
  pose proof (@spec_redact_columns PII_FIELDS "XXX" " "
                (map (fun kv => (fst kv, str_of (snd kv))) cols)
                key (str_of value)) as H.
  rewrite !map_map in H. cbn [fst snd] in H. apply H.
  - reflexivity.
  - reflexivity.
  - cbn [forallb fst snd]. rewrite Hlastc. cbn [andb].
    clear - Hcols. induction cols as [|c cols IH]; [reflexivity|].
    cbn [forallb map fst snd] in Hcols |- *.
    apply andb_true_iff in Hcols. destruct Hcols as [Hc Hcols].
    now rewrite Hc, IH.
Qed.

(** X15.  What [main] shows of a row whose keys and values hold no space,
    no newline and no [=]: each column but the last is logged with the
    token ["XXX"] for its value when its key ends with one of
    [PII_FIELDS] (so [username] is masked as [name] is), and as it is
    otherwise; the last column of the row is logged as it is, whatever its
    key. *)
Theorem main_leaves_last_column_in_clear (Value : Type)
    (str_of : Value -> str) (Connection : Type)
    (connect : ConnectArgs -> option Connection)
    (fetch_users : Connection -> option (list (list (str * Value))))
    (st : Process) (db : Connection) (rows : list (list (str * Value))) :
  lookup "user_data" (loggerDict st) = None ->
  disable st < INFO ->
  get_db connect st = Ok (db, st) ->
  fetch_users db = Some rows ->
  forallb (forallb (fun kv =>
    clean " " (fst kv) && clean " " (str_of (snd kv)))) rows = true ->
  exists st',
    main str_of connect fetch_users st = Ok (tt, st') /\
    stderr st' =
      stderr st ++
      flat_map (fun row =>
        join " "
          (map (fun kv => mask PII_FIELDS "XXX" (fst kv) (str_of (snd kv)))
               (removelast row)
           ++ map (fun kv => fst kv ++ "=" ++ str_of (snd kv))
                  (skipn (length row - 1) row))
        ++ [newline]) rows.
Proof.
  intros Hl Hdis Hdb Hrows Hclean.
  destruct (@main_runs Value str_of Connection connect fetch_users st db rows
              Hl Hdis Hdb Hrows) as [st' [Hmain Herr]].
  exists st'. split; [assumption|]. rewrite Herr. f_equal.
  clear - Hclean. induction rows as [|row rows IH]; [reflexivity|].
  cbn [forallb] in Hclean. apply andb_true_iff in Hclean.
  destruct Hclean as [Hrow Hrows].
  cbn [flat_map]. now rewrite IH, row_line.
Qed.

Lemma main_leaves_last_column_in_clear_witness :
  exists st',
    main (fun v : str => v) (fun _ => Some tt)
         (fun _ : unit =>
            Some [[("username", "bob"); ("email", "b@x.org"); ("ip", "10.0.0.1");
                 ("password", "hunter2")]])
         (startup (fun _ => None)) = Ok (tt, st') /\
    stderr st' =
      "" ++ flat_map (fun row => row ++ [newline])
              ["username=XXX email=XXX ip=10.0.0.1 password=hunter2"].
Proof.
  apply (@main_leaves_last_column_in_clear str (fun v => v) unit
           (fun _ => Some tt)
           (fun _ =>
              Some [[("username", "bob"); ("email", "b@x.org");
                   ("ip", "10.0.0.1"); ("password", "hunter2")]])
           (startup (fun _ => None)) tt
           [[("username", "bob"); ("email", "b@x.org"); ("ip", "10.0.0.1");
             ("password", "hunter2")]]).
  - reflexivity.
  - cbn. unfold INFO. lia.
  - reflexivity.
  - reflexivity.
  - reflexivity.
Defined.
